(** * Barber queue system: queue engine and nearby-shop discovery

    A shallow embedding of
    - [backend/models/Customer.js] (the queue document and its methods),
    - [backend/controllers/queueController.js] (join, cancel, serve, complete,
      position recompute, and the read handlers: my-queue, status, list,
      stats),
    - [backend/controllers/customerAuthController.js] (registration, which
      creates the queue document of a customer),
    - [backend/controllers/barberShopController.js] and
      [backend/controllers/barberController.js] (the two [getNearbyBarbers]),
    - [getDistance] of [backend/models/Barber.js] / [BarberShop.js], and the
      distance text of the enriched shops.

    The MongoDB collection is a list of documents in insertion order (the
    natural order of the collection); handlers are functions from a store to
    a reply and a new store. Where the code multiplies doubles, the product
    is that of the binary64 floats of [PrimFloat]. *)

From Stdlib Require Import PrimFloat SpecFloat FloatOps.
From Stdlib Require Import ZArith QArith Qround Lia Ascii DecimalString.
From stdpp Require Import base tactics option list strings sorting.

Open Scope string_scope.
Open Scope list_scope.
Open Scope Z_scope.

(** A decimal literal of a double denotes the nearest double, as it does in
    JavaScript. *)
Set Warnings "-inexact-float".

(** ** A stable insertion sort

    [Array.prototype.sort] is stable, and [find().sort()] of the store is
    modelled as stable with respect to the natural order. *)
Module StableSort.
Section Sort.
Context {A : Type} (leb : A -> A -> bool).

Fixpoint insert (x : A) (l : list A) : list A :=
  match l with
  | [] => [x]
  | y :: l' => if leb x y then x :: l else y :: insert x l'
  end.

Definition sort (l : list A) : list A := foldr insert [] l.
End Sort.
End StableSort.

(** ** JavaScript numbers that may be [NaN] *)
Inductive JsNumber :=
  | jsNum (z : Z)
  | jsNaN.

(** ** models/Customer.js *)
Module CustomerModel.

Inductive Status := waiting | in_service | completed | cancelled.

#[export] Instance Status_eq_dec : EqDecision Status.
Proof. solve_decision. Defined.

(** The [tokenNumber] path: a number, an explicit [null] (written by
    [cancelQueue]) or absent (a document created by registration). *)
Inductive TokenNumber :=
  | tokNum (n : Z)
  | tokNull
  | tokMissing.

#[export] Instance TokenNumber_eq_dec : EqDecision TokenNumber.
Proof. solve_decision. Defined.

Record Customer := mkCustomer {
  _id : nat;
  name : string;
  email : string;
  phone : string;
  tokenNumber : TokenNumber;
  shopId : string;
  status : Status;
  serviceType : string;
  estimatedWaitTime : Z;
  queuePosition : Z
}.

Abbreviation Store := (list Customer).

(** [enum] of the [serviceType] path. *)
Definition serviceTypeEnum : list string :=
  ["haircut"; "shave"; "haircut-shave"; "styling"; "other"].

Definition set_status (s : Status) (c : Customer) : Customer :=
  mkCustomer (_id c) (name c) (email c) (phone c) (tokenNumber c) (shopId c)
             s (serviceType c) (estimatedWaitTime c) (queuePosition c).

(** [doc.save()]: the modified paths are written to the stored document
    with the same [_id]. *)
Definition save (id : nat) (modify : Customer -> Customer) (st : Store) : Store :=
  (fun d => if decide (_id d = id) then modify d else d) <$> st.

Definition findById (st : Store) (id : nat) : option Customer :=
  snd <$> list_find (fun d => _id d = id) st.

Definition findOneByEmail (st : Store) (e : string) : option Customer :=
  snd <$> list_find (fun d => email d = e) st.

(** [startService]: status and [save]. *)
Definition startService (c : Customer) (st : Store) : Store :=
  save (_id c) (set_status in_service) st.

(** [completeService]: status and [save]. *)
Definition completeService (c : Customer) (st : Store) : Store :=
  save (_id c) (set_status completed) st.

(** Ordering used by [sort({ tokenNumber: -1 })]: [null] and absent compare
    equal and below every number. *)
Definition tokenRank (t : TokenNumber) : option Z :=
  match t with
  | tokNum n => Some n
  | tokNull | tokMissing => None
  end.

Definition token_geb (a b : Customer) : bool :=
  match tokenRank (tokenNumber a), tokenRank (tokenNumber b) with
  | Some x, Some y => y <=? x
  | Some _, None => true
  | None, Some _ => false
  | None, None => true
  end.

(** [lastCustomer.tokenNumber + 1]: [null + 1] is [1], [undefined + 1] is
    [NaN]. *)
Definition plus_one (t : TokenNumber) : JsNumber :=
  match t with
  | tokNum n => jsNum (n + 1)
  | tokNull => jsNum 1
  | tokMissing => jsNaN
  end.

(** [getNextTokenNumber]: [findOne({ shopId }).sort({ tokenNumber: -1 })]. *)
Definition getNextTokenNumber (st : Store) (shop : string) : JsNumber :=
  match StableSort.sort token_geb (filter (fun d => shopId d = shop) st) with
  | lastCustomer :: _ => plus_one (tokenNumber lastCustomer)
  | [] => jsNum 1
  end.

Definition isActive (c : Customer) : Prop :=
  status c = waiting \/ status c = in_service.

#[export] Instance isActive_dec c : Decision (isActive c).
Proof. unfold isActive. apply _. Defined.

(** [countDocuments({ shopId, status: { $in: ['waiting','in-service'] } })] *)
Definition countActive (st : Store) (shop : string) : Z :=
  Z.of_nat (length (filter (fun d => shopId d = shop /\ isActive d) st)).

Definition isWaitingIn (shop : string) (c : Customer) : Prop :=
  shopId c = shop /\ status c = waiting.

#[export] Instance isWaitingIn_dec shop c : Decision (isWaitingIn shop c).
Proof. unfold isWaitingIn. apply _. Defined.

Definition position_leb (a b : Customer) : bool :=
  queuePosition a <=? queuePosition b.

(** [getCurrentQueue] *)
Definition getCurrentQueue (st : Store) (shop : string) : list Customer :=
  StableSort.sort position_leb (filter (fun d => shopId d = shop /\ isActive d) st).

End CustomerModel.
Export CustomerModel.

(** ** controllers/queueController.js and customerAuthController.js *)
Module QueueController.

(** [req.user], set by the authentication middleware. *)
Record User := mkUser {
  user_name : string;
  user_phone : string;
  user_email : string
}.

(** [req.body] of [POST /api/queue/join]; [None] is an absent field. *)
Record JoinBody := mkJoinBody {
  body_serviceType : option string;
  body_shopId : option string
}.

Record JoinData := mkJoinData {
  data_tokenNumber : Z;
  data_queuePosition : Z;
  data_estimatedWaitTime : Z;
  data_customerId : nat
}.

(** The reply of a handler: the HTTP status code and, on success, the
    payload that matters here. *)
Inductive Reply :=
  | Joined (d : JoinData)               (* 201 *)
  | Registered (id : nat)               (* 201 *)
  | Done (c : option Customer)          (* 200 *)
  | Failed (code : Z).

Definition set_position (p e : Z) (c : Customer) : Customer :=
  mkCustomer (_id c) (name c) (email c) (phone c) (tokenNumber c) (shopId c)
             (status c) (serviceType c) e p.

(** The loop of [updateQueuePositions], from index [i]. *)
Fixpoint assignPositions (i : Z) (waitingCustomers : list Customer) (st : Store) : Store :=
  match waitingCustomers with
  | [] => st
  | w :: rest =>
      assignPositions (i + 1) rest
        (save (_id w) (set_position (i + 1) ((i + 1) * 20)) st)
  end.

Definition updateQueuePositions (shop : string) (st : Store) : Store :=
  let waitingCustomers :=
    StableSort.sort position_leb (filter (isWaitingIn shop) st) in
  assignPositions 0 waitingCustomers st.

(** An [_id] that no stored document has (a new ObjectId). *)
Definition freshId (st : Store) : nat := S (max_list (_id <$> st)).

(** The update document of [findOneAndUpdate] applied to a stored one. *)
Definition joinUpdate (u : User) (service shop : string) (token position : Z)
    (c : Customer) : Customer :=
  mkCustomer (_id c) (user_name u) (user_email u) (user_phone u) (tokNum token)
             shop waiting service (estimatedWaitTime c) position.

(** [findOneAndUpdate({ email }, ..., { new: true, upsert: true })]: the
    first document with the email is updated in place; without one, a
    document with the schema defaults is inserted. *)
Definition findOneAndUpdate (u : User) (service shop : string) (token position : Z)
    (st : Store) : Customer * Store :=
  match findOneByEmail st (user_email u) with
  | Some c =>
      let c' := joinUpdate u service shop token position c in
      (c', save (_id c) (fun _ => c') st)
  | None =>
      let c' := mkCustomer (freshId st) (user_name u) (user_email u) (user_phone u)
                           (tokNum token) shop waiting service 0 position in
      (c', st ++ [c'])
  end.

Definition joinQueue (u : User) (body : JoinBody) (st : Store) : Reply * Store :=
  let shop := default "main-shop" (body_shopId body) in
  match body_serviceType body with
  | None | Some "" => (Failed 400, st)
  | Some service =>
      let tokenNumber := getNextTokenNumber st shop in
      let queueCount := countActive st shop in
      match tokenNumber with
      | jsNaN => (Failed 500, st)         (* the Number cast rejects NaN *)
      | jsNum token =>
          if decide (service ∈ serviceTypeEnum /\ shop <> "") then
            let '(customer, st') :=
              findOneAndUpdate u service shop token (queueCount + 1) st in
            (Joined (mkJoinData token (queuePosition customer)
                       (estimatedWaitTime customer) (_id customer)), st')
          else (Failed 500, st)           (* runValidators *)
      end
  end.

Definition cancelUpdate (c : Customer) : Customer :=
  mkCustomer (_id c) (name c) (email c) (phone c) tokNull "main-shop"
             cancelled (serviceType c) (estimatedWaitTime c) 0.

(** [user] is [req.user]; [id] is [req.params.id], [None] when it is not
    24 hexadecimal digits. *)
Definition cancelQueue (user : option User) (id : option nat) (st : Store)
    : Reply * Store :=
  match user with
  | None => (Failed 401, st)
  | Some u =>
      if decide (user_email u = "") then (Failed 401, st) else
      match id with
      | None => (Failed 400, st)
      | Some i =>
          match findById st i with
          | None => (Failed 404, st)
          | Some customer =>
              if decide (email customer <> user_email u) then (Failed 403, st)
              else if decide (status customer <> waiting) then (Failed 400, st)
              else
                let shop := shopId customer in
                let st1 := save (_id customer) cancelUpdate st in
                (Done None, updateQueuePositions shop st1)
          end
      end
  end.

(** [id] is [None] when [findById] cannot cast the parameter. *)
Definition serveCustomer (id : option nat) (st : Store) : Reply * Store :=
  match id with
  | None => (Failed 500, st)
  | Some i =>
      match findById st i with
      | None => (Failed 404, st)
      | Some customer =>
          if decide (status customer <> waiting) then (Failed 400, st)
          else (Done (Some (set_status in_service customer)),
                startService customer st)
      end
  end.

Definition completeService (id : option nat) (st : Store) : Reply * Store :=
  match id with
  | None => (Failed 500, st)
  | Some i =>
      match findById st i with
      | None => (Failed 404, st)
      | Some customer =>
          let st1 := CustomerModel.completeService customer st in
          (Done (Some (set_status completed customer)),
           updateQueuePositions (shopId customer) st1)
      end
  end.

(** *** The setters and validators of the customer schema

    A text is the list of its UTF-16 code units, each below 256. *)

(** The white space of [trim] and of [\s]: tab, line feed, vertical tab,
    form feed, carriage return, space and no-break space. *)
Definition isWhiteSpace (c : ascii) : bool :=
  let n := N_of_ascii c in
  ((9 <=? n) && (n <=? 13) || (n =? 32) || (n =? 160))%N.

Fixpoint trimStart (s : string) : string :=
  match s with
  | EmptyString => EmptyString
  | String c s' => if isWhiteSpace c then trimStart s' else s
  end.

Fixpoint trimEnd (s : string) : string :=
  match s with
  | EmptyString => EmptyString
  | String c s' =>
      match trimEnd s' with
      | EmptyString => if isWhiteSpace c then EmptyString else String c EmptyString
      | rest => String c rest
      end
  end.

(** [trim: true] *)
Definition trim (s : string) : string := trimEnd (trimStart s).

(** [toLowerCase] of a code unit: the letters A to Z and the capital
    letters with a diacritic (192 to 222, the multiplication sign 215
    apart) are 32 below their small letters. *)
Definition lowerCase (c : ascii) : ascii :=
  let n := N_of_ascii c in
  if ((65 <=? n) && (n <=? 90) || (192 <=? n) && (n <=? 214)
      || (216 <=? n) && (n <=? 222))%N
  then ascii_of_N (n + 32) else c.

(** [lowercase: true] *)
Fixpoint toLowerCase (s : string) : string :=
  match s with
  | EmptyString => EmptyString
  | String c s' => String (lowerCase c) (toLowerCase s')
  end.

Fixpoint noWhiteSpace (s : string) : bool :=
  match s with
  | EmptyString => true
  | String c s' => negb (isWhiteSpace c) && noWhiteSpace s'
  end.

(** Somewhere in the text, a dot followed by at least one character. *)
Fixpoint dotThenMore (s : string) : bool :=
  match s with
  | EmptyString => false
  | String c s' =>
      Ascii.eqb c "." && negb (String.eqb s' EmptyString) || dotThenMore s'
  end.

(** Somewhere in the text, an [@] followed by at least one character, a
    dot and at least one character. *)
Fixpoint atThenDomain (s : string) : bool :=
  match s with
  | EmptyString => false
  | String c s' =>
      Ascii.eqb c "@"
      && match s' with
         | EmptyString => false
         | String _ s'' => dotThenMore s''
         end
      || atThenDomain s'
  end.

(** [/^\S+@\S+\.\S+$/.test(s)]: no white space at all, and an [@] after at
    least one character, followed as above. *)
Definition matchesEmail (s : string) : bool :=
  noWhiteSpace s
  && match s with
     | EmptyString => false
     | String _ s' => atThenDomain s'
     end.

Fixpoint allDigits (s : string) : bool :=
  match s with
  | EmptyString => true
  | String c s' =>
      let n := N_of_ascii c in
      ((48 <=? n) && (n <=? 57))%N && allDigits s'
  end.

(** [/^[0-9]{10}$/.test(s)] *)
Definition matchesPhone (s : string) : bool :=
  (String.length s =? 10)%nat && allDigits s.

(** The validators of [name], [email], [password] and [phone], on the
    values the setters have produced: a name of 2 to 50 characters, an
    email and a phone that match, a password of at least 6 characters. *)
Definition validate (name email password phone : string) : bool :=
  (2 <=? String.length name)%nat && (String.length name <=? 50)%nat
  && matchesEmail email
  && (6 <=? String.length password)%nat
  && matchesPhone phone.

(** [registerCustomer], with [req.body] as the user fields and the
    password. The setters of the schema ([trim] for name, email and phone,
    [lowercase] for email) run on the filter of [findOne] and on the
    document of [create]. A document that fails the validators makes
    [create] throw: the reply is the 500 of the [catch] block and nothing
    is stored. Otherwise the document gets the schema defaults (shop
    ['main-shop'], status ['waiting'], position 0, no token number). *)
Definition registerCustomer (u : User) (password : string) (st : Store)
    : Reply * Store :=
  if decide (user_name u = "" \/ user_email u = "" \/ password = ""
             \/ user_phone u = "")
  then (Failed 400, st)
  else
    let name := trim (user_name u) in
    let email := toLowerCase (trim (user_email u)) in
    let phone := trim (user_phone u) in
    match findOneByEmail st email with
    | Some _ => (Failed 400, st)
    | None =>
        if validate name email password phone then
          let c := mkCustomer (freshId st) name email phone tokMissing
                              "main-shop" waiting "haircut" 0 0 in
          (Registered (_id c), st ++ [c])
        else (Failed 500, st)
    end.

(** The requests of the queue engine. *)
Inductive Op :=
  | ReqRegister (u : User) (password : string)
  | ReqJoin (u : User) (body : JoinBody)
  | ReqCancel (user : option User) (id : option nat)
  | ReqServe (id : option nat)
  | ReqComplete (id : option nat).

Definition step (op : Op) (st : Store) : Reply * Store :=
  match op with
  | ReqRegister u password => registerCustomer u password st
  | ReqJoin u body => joinQueue u body st
  | ReqCancel user id => cancelQueue user id st
  | ReqServe id => serveCustomer id st
  | ReqComplete id => completeService id st
  end.

(** Runs the requests in order and collects the replies. *)
Fixpoint run (ops : list Op) (st : Store) : list Reply * Store :=
  match ops with
  | [] => ([], st)
  | op :: ops' =>
      let '(r, st1) := step op st in
      let '(rs, st2) := run ops' st1 in
      (r :: rs, st2)
  end.

Inductive reachable : Store -> Prop :=
  | reachable_empty : reachable []
  | reachable_step op st : reachable st -> reachable (snd (step op st)).

End QueueController.
Export QueueController.

(** ** getNearbyBarbers of the two discovery controllers *)
Module Discovery.

(** The result of [parseFloat]. *)
Inductive JsFloat :=
  | floatNum (q : Q)
  | floatNaN.

(** The [radius] query parameter: absent, the empty string, or a text
    with its [parseInt]. *)
Inductive RadiusParam :=
  | radiusAbsent
  | radiusEmpty
  | radiusText (parsed : JsNumber).

(** [req.query] after [parseFloat(lat || latitude)] and
    [parseFloat(lng || longitude)]. *)
Record Query := mkQuery {
  userLat : JsFloat;
  userLon : JsFloat;
  radius : RadiusParam
}.

(** A document that the [$near] query returns has stored coordinates, and
    [R * c] of [getDistance] is a double from 0 to 20016 for it: [c] is an
    angle from 0 to pi, and half the circumference of the Earth is below
    20016 km. *)
Definition onEarth (distance : float) : bool :=
  (0 <=? distance)%float && (distance <=? 20016)%float.

(** A document returned by the [$near] query. The trigonometry of
    [getDistance] stays outside the embedding: the candidate carries
    [greatCircleKm], the double [R * c] that [getDistance] computes for it
    and the origin of the query. *)
Record Candidate := mkCandidate {
  cand_shopId : string;
  averageWaitTime : Z;
  greatCircleKm : float;
  greatCircleKm_onEarth : onEarth greatCircleKm = true
}.

(** The number that a finite double denotes: mantissa times a power of 2,
    with its sign. (The infinities and [NaN] denote no number; the products
    of [getDistance], at most 200160, are finite.) *)
Definition numberOf (x : float) : Q :=
  match Prim2SF x with
  | S754_finite s m e =>
      let magnitude :=
        if 0 <=? e then inject_Z (Z.pos m * 2 ^ e)
        else (Z.pos m # 2 ^ Z.to_pos (- e))%Q in
      if s then (- magnitude)%Q else magnitude
  | S754_zero _ | S754_infinity _ | S754_nan => 0%Q
  end.

(** [Math.round(x)]: the nearest integer, halves upwards. *)
Definition Math_round (x : Q) : Z := Qfloor (x + (1 # 2)).

(** [getDistance]: [return Math.round(distance * 10) / 10], where
    [distance * 10] is the product of doubles. *)
Definition getDistance (c : Candidate) : Q :=
  (inject_Z (Math_round (numberOf (greatCircleKm c * 10)%float)) / 10)%Q.

Record Enriched := mkEnriched {
  en_shopId : string;
  distance : Q;
  queueLength : Z;
  en_estimatedWaitTime : Z;
  waitTimeText : string
}.

(** The decimal text of an integer in a template literal. *)
Definition toText (z : Z) : string := NilZero.string_of_int (Z.to_int z).

Definition formatWaitTime (estimatedWaitTime : Z) : string :=
  if decide (estimatedWaitTime = 0) then "No wait"
  else if decide (estimatedWaitTime < 60) then
    (toText estimatedWaitTime ++ " min")%string
  else
    let hours := estimatedWaitTime / 60 in
    let mins := Z.rem estimatedWaitTime 60 in
    if decide (mins > 0)
    then (toText hours ++ " hr " ++ toText mins ++ " min")%string
    else (toText hours ++ " hr")%string.

Definition distance_leb (a b : Enriched) : bool :=
  Qle_bool (distance a) (distance b).

(** [enrichedBarbers.sort((a, b) => a.distance - b.distance)] *)
Definition sortByDistance (l : list Enriched) : list Enriched :=
  StableSort.sort distance_leb l.

(** The reply: an error reply with its message, the reply of a [catch]
    block that passes on the message of the error it caught, or the result
    list. *)
Inductive Response :=
  | Rejected (code : Z) (message : string)
  | Caught (code : Z)
  | Found (maxDistance : JsNumber) (data : list Enriched).

(** [!x] on the result of [parseFloat]: true for 0 and for [NaN]. *)
Definition falsy (x : JsFloat) : bool :=
  match x with
  | floatNum q => Qeq_bool q 0
  | floatNaN => true
  end.

(** [userLat < -90 || userLat > 90 || userLon < -180 || userLon > 180];
    every comparison with [NaN] is false. *)
Definition outOfRange (lat lon : JsFloat) : bool :=
  match lat, lon with
  | floatNum la, floatNum lo =>
      negb (Qle_bool (-90) la) || negb (Qle_bool la 90)
      || negb (Qle_bool (-180) lo) || negb (Qle_bool lo 180)
  | floatNum la, floatNaN => negb (Qle_bool (-90) la) || negb (Qle_bool la 90)
  | floatNaN, floatNum lo => negb (Qle_bool (-180) lo) || negb (Qle_bool lo 180)
  | floatNaN, floatNaN => false
  end.

(** The store: the [$near] query of a collection, given longitude,
    latitude and [$maxDistance]. The query is cast before it is sent:
    [$maxDistance: NaN] throws, and the store is not asked. *)
Definition NearQuery := JsFloat -> JsFloat -> JsNumber -> list Candidate.

(** *** controllers/barberShopController.js *)
Module BarberShopController.

Definition enrich (customers : Store) (shop : Candidate) : Enriched :=
  let distance := getDistance shop in
  let queueLength := countActive customers (cand_shopId shop) in
  let estimatedWaitTime := queueLength * 15 in
  mkEnriched (cand_shopId shop) distance queueLength estimatedWaitTime
             (formatWaitTime estimatedWaitTime).

Definition getNearbyBarbers (findBarbers findShops : NearQuery)
    (customers : Store) (q : Query) : Response :=
  if falsy (userLat q) || falsy (userLon q) then
    Rejected 400 "Valid latitude and longitude are required"
  else if outOfRange (userLat q) (userLon q) then
    Rejected 400 "Coordinates out of valid range"
  else
    let maxDistance :=
      match radius q with
      | radiusText parsed => parsed
      | radiusAbsent | radiusEmpty => jsNum 5000
      end in
    match maxDistance with
    | jsNaN => Rejected 500 "Failed to fetch nearby barber shops"
    | jsNum _ =>
        let barbers := findBarbers (userLon q) (userLat q) maxDistance in
        let shops := findShops (userLon q) (userLat q) maxDistance in
        let nearbyBarbers := barbers ++ shops in
        Found maxDistance (sortByDistance (enrich customers <$> nearbyBarbers))
    end.

End BarberShopController.

(** *** controllers/barberController.js *)
Module BarberController.

Definition enrich (customers : Store) (barber : Candidate) : Enriched :=
  let distance := getDistance barber in
  let queueLength := countActive customers (cand_shopId barber) in
  let estimatedWaitTime := queueLength * averageWaitTime barber in
  mkEnriched (cand_shopId barber) distance queueLength estimatedWaitTime
             (formatWaitTime estimatedWaitTime).

(** [maxDistance < 0 || maxDistance > 50000], false for [NaN]. *)
Definition radiusOutOfRange (maxDistance : JsNumber) : bool :=
  match maxDistance with
  | jsNum r => (r <? 0) || (50000 <? r)
  | jsNaN => false
  end.

Definition getNearbyBarbers (findNearby : NearQuery)
    (customers : Store) (q : Query) : Response :=
  if falsy (userLat q) || falsy (userLon q) then
    Rejected 400 "Valid latitude and longitude are required"
  else
    let maxDistance :=
      match radius q with
      | radiusAbsent => jsNum 2000
      | radiusEmpty => jsNaN
      | radiusText parsed => parsed
      end in
    if outOfRange (userLat q) (userLon q) then
      Rejected 400 "Invalid coordinates: latitude must be between -90 and 90, longitude between -180 and 180"
    else if radiusOutOfRange maxDistance then
      Rejected 400 "Radius must be between 0 and 50000 meters"
    else
      match maxDistance with
      | jsNaN => Caught 500
      | jsNum _ =>
          let barbers := findNearby (userLon q) (userLat q) maxDistance in
          Found maxDistance (sortByDistance (enrich customers <$> barbers))
      end.

End BarberController.


End Discovery.
Export Discovery.

(** ** Notions used by the statements *)
Module Notions.

(** What the loop of [updateQueuePositions] does to one stored document. *)
Fixpoint assign (i : Z) (ws : list Customer) (d : Customer) : Customer :=
  match ws with
  | [] => d
  | w :: rest =>
      assign (i + 1) rest
        (if decide (_id d = _id w)
         then set_position (i + 1) ((i + 1) * 20) d else d)
  end.

(** The waiting entries of a shop, in store order. *)
Definition waitingOf (shop : string) (st : Store) : list Customer :=
  filter (isWaitingIn shop) st.

(** The list [updateQueuePositions] fetches. *)
Definition sortedWaiting (shop : string) (st : Store) : list Customer :=
  StableSort.sort position_leb (waitingOf shop st).

(** The integers [i+1 .. i+n]. *)
Definition positionsFrom (i : Z) (n : nat) : list Z :=
  (fun k => i + Z.of_nat k) <$> seq 1 n.

(** The ticket numbers held by the documents of a shop. *)
Definition ticketsOf (shop : string) (st : Store) : list Z :=
  omap (fun d => tokenRank (tokenNumber d)) (filter (fun d => shopId d = shop) st).

(** [max(existing ticket numbers for shop) + 1], 1 if none exist. *)
Definition nextTicket (shop : string) (st : Store) : Z :=
  match ticketsOf shop st with
  | [] => 1
  | t :: ts => foldr Z.max t ts + 1
  end.

(** The ticket numbers that the successful joins of a shop were given. *)
Definition ticketsGiven (shop : string) (ops : list Op) (replies : list Reply) : list Z :=
  omap (fun '(op, r) =>
          match op, r with
          | ReqJoin _ body, Joined d =>
              if decide (default "main-shop" (body_shopId body) = shop)
              then Some (data_tokenNumber d) else None
          | _, _ => None
          end) (zip ops replies).

(** A request that is a Join to the shop, a Serve, a Complete or a
    registration: the requests of a shop other than Cancel. *)
Definition joinServeComplete (shop : string) (op : Op) : Prop :=
  match op with
  | ReqJoin _ body => default "main-shop" (body_shopId body) = shop
  | ReqRegister _ _ | ReqServe _ | ReqComplete _ => True
  | ReqCancel _ _ => False
  end.


(** [lat] in [-90, 90] and [lon] in [-180, 180]. *)
Definition inRange (lat lon : Q) : Prop :=
  (-90 <= lat)%Q /\ (lat <= 90)%Q /\ (-180 <= lon)%Q /\ (lon <= 180)%Q.


(** No two documents share an [_id], and none share an email. *)
Definition oneDocument (st : Store) : Prop :=
  NoDup (_id <$> st) /\ NoDup (email <$> st).

End Notions.
Export Notions.

(** ** Sample customers and request sequences *)
Module Examples.

Definition asha := mkUser "Asha" "9000000001" "asha@example.com".
Definition bina := mkUser "Bina" "9000000002" "bina@example.com".
Definition chetan := mkUser "Chetan" "9000000003" "chetan@example.com".
Definition dev := mkUser "Dev" "9000000004" "dev@example.com".

Definition signup (u : User) : Op := ReqRegister u "s3cret-word".

Definition haircutAt (shop : string) : JoinBody :=
  mkJoinBody (Some "haircut") (Some shop).

(** Asha joins and cancels, then Bina joins the same shop. *)
Definition cancelThenJoin : list Op :=
  [signup asha; signup bina;
   ReqJoin asha (haircutAt "shop-x");
   ReqCancel (Some asha) (Some 1%nat);
   ReqJoin bina (haircutAt "shop-x")].

(** Three customers join a shop and the first is served and completed. *)
Definition joinServeCompleteRun : list Op :=
  [signup asha; signup bina; signup chetan;
   ReqJoin asha (haircutAt "shop-x");
   ReqJoin bina (haircutAt "shop-x");
   ReqServe (Some 1%nat);
   ReqComplete (Some 1%nat);
   ReqJoin chetan (haircutAt "shop-x")].

(** Asha and Bina leave shop-x for shop-y while Chetan waits at position
    3; Dev then joins shop-x at position 2, and Asha comes back. *)
Definition movedAway : list Op :=
  [signup asha; signup bina; signup chetan; signup dev;
   ReqJoin asha (haircutAt "shop-x");
   ReqJoin bina (haircutAt "shop-x");
   ReqJoin chetan (haircutAt "shop-x");
   ReqJoin asha (haircutAt "shop-y");
   ReqJoin bina (haircutAt "shop-y");
   ReqJoin dev (haircutAt "shop-x");
   ReqJoin asha (haircutAt "shop-x")].

(** Asha is being served when Bina joins. *)
Definition servedThenJoin : list Op :=
  [signup asha; signup bina;
   ReqJoin asha (haircutAt "shop-x");
   ReqServe (Some 1%nat)].

(** Three customers wait at shop-x. *)
Definition threeWaiting : list Op :=
  [signup asha; signup bina; signup chetan;
   ReqJoin asha (haircutAt "shop-x");
   ReqJoin bina (haircutAt "shop-x");
   ReqJoin chetan (haircutAt "shop-x")].

Definition storeAfter (ops : list Op) : Store := snd (run ops []).

(** Asha joins shop-x twice, then Bina joins: both are stored at
    position 2. *)
Definition rejoinTie : list Op :=
  [signup asha; signup bina;
   ReqJoin asha (haircutAt "shop-x");
   ReqJoin asha (haircutAt "shop-x");
   ReqJoin bina (haircutAt "shop-x")].


(** The same longitude on the equator. *)
Definition equator : Query :=
  mkQuery (floatNum 0) (floatNum (728311 # 10000)) radiusAbsent.

(** The same place with a radius of 60 km. *)
Definition suratWide : Query :=
  mkQuery (floatNum (211702 # 10000)) (floatNum (728311 # 10000))
          (radiusText (jsNum 60000)).

(** The same place with [radius=] (empty) and with [radius=near]. *)
Definition suratEmptyRadius : Query :=
  mkQuery (floatNum (211702 # 10000)) (floatNum (728311 # 10000)) radiusEmpty.
Definition suratTextRadius : Query :=
  mkQuery (floatNum (211702 # 10000)) (floatNum (728311 # 10000))
          (radiusText jsNaN).

(** One shop of the Barber collection 0.44 km away and one of the
    BarberShop collection 0.41 km away. *)
Definition barberCollection : NearQuery :=
  fun _ _ _ => [mkCandidate "shop-b" 15 0.44 eq_refl].
Definition shopCollection : NearQuery :=
  fun _ _ _ => [mkCandidate "shop-a" 15 0.41 eq_refl].
Definition noShops : NearQuery := fun _ _ _ => [].

(** A barber of shop-x with an average service time of 20 minutes. *)
Definition barberX : Candidate := mkCandidate "shop-x" 20 0.43 eq_refl.

(** A shop 0.15 km away: the double nearest to 0.15 lies below it, and its
    product with 10 is the double 1.5. *)
Definition shopAt150m : Candidate := mkCandidate "shop-c" 15 0.15 eq_refl.

End Examples.

(** ** The read handlers of controllers/queueController.js *)
Module QueueReads.

(** [Customer.findOne({ email, status: { $in: ['waiting', 'in-service'] } })] *)
Definition findOneActiveByEmail (st : Store) (e : string) : option Customer :=
  snd <$> list_find (fun d => email d = e /\ isActive d) st.

(** [Customer.findOne({ tokenNumber, shopId })] *)
Definition findOneByToken (st : Store) (token : Z) (shop : string)
    : option Customer :=
  snd <$> list_find (fun d => tokenNumber d = tokNum token /\ shopId d = shop) st.

(** [customer.queuePosition = p] on the fetched document (not saved). *)
Definition withPosition (p : Z) (c : Customer) : Customer :=
  set_position p (estimatedWaitTime c) c.

(** [countDocuments({ shopId, status: 'waiting',
    queuePosition: { $lt: p } })] *)
Definition countWaitingBefore (st : Store) (shop : string) (p : Z) : Z :=
  Z.of_nat (length (filter (fun d => isWaitingIn shop d /\ queuePosition d < p) st)).

(** [countDocuments({ shopId, status: 'waiting',
    queuePosition: { $lte: p } })] *)
Definition countWaitingUpTo (st : Store) (shop : string) (p : Z) : Z :=
  Z.of_nat (length (filter (fun d => isWaitingIn shop d /\ queuePosition d <= p) st)).

(** [getMyQueueStatus] for the authenticated user. *)
Definition getMyQueueStatus (u : User) (st : Store) : Reply :=
  match findOneActiveByEmail st (user_email u) with
  | None => Done None
  | Some customer =>
      if decide (status customer = waiting) then
        let position :=
          countWaitingBefore st (shopId customer) (queuePosition customer) in
        Done (Some (withPosition (position + 1) customer))
      else Done (Some customer)
  end.

(** [req.params.id] of [getCustomerStatus]: the ObjectId it denotes when it
    is 24 hexadecimal digits, and its [parseInt]. *)
Record StatusParam := mkStatusParam {
  param_objectId : option nat;
  param_int : JsNumber
}.

(** [getCustomerStatus]; [shopQuery] is [req.query.shopId]. The Number cast
    of the query rejects [NaN]. *)
Definition getCustomerStatus (id : StatusParam) (shopQuery : option string)
    (st : Store) : Reply :=
  let shop := default "main-shop" shopQuery in
  let recalculated (customer : Customer) : Reply :=
    if decide (status customer = waiting) then
      let position := countWaitingUpTo st shop (queuePosition customer) in
      Done (Some (withPosition position customer))
    else Done (Some customer) in
  match param_objectId id ≫= findById st with
  | Some customer => recalculated customer
  | None =>
      match param_int id with
      | jsNaN => Failed 500
      | jsNum token =>
          match findOneByToken st token shop with
          | Some customer => recalculated customer
          | None => Failed 404
          end
      end
  end.

(** [getQueue]: the [count] and the [data] of the reply. *)
Definition getQueue (shopQuery : option string) (st : Store)
    : Z * list Customer :=
  let queue := getCurrentQueue st (default "main-shop" shopQuery) in
  (Z.of_nat (length queue), queue).

(** The [data] of [getQueueStats] without [completedToday], which depends
    on the clock and on the completion time stamps. *)
Record QueueStats := mkQueueStats {
  stats_waiting : Z;
  stats_inService : Z;
  stats_totalInQueue : Z;
  stats_estimatedWaitTime : Z
}.

Definition getQueueStats (shopQuery : option string) (st : Store) : QueueStats :=
  let shop := default "main-shop" shopQuery in
  let waiting :=
    Z.of_nat (length (filter (fun d => shopId d = shop /\ status d = waiting) st)) in
  let inService :=
    Z.of_nat (length (filter (fun d => shopId d = shop /\ status d = in_service) st)) in
  let avgServiceTime := 20 in
  let estimatedWaitTime := waiting * avgServiceTime in
  mkQueueStats waiting inService (waiting + inService) estimatedWaitTime.

End QueueReads.
Export QueueReads.

(** ** The distance text of the enriched shops *)
Module Display.

(** [x < y] on numbers. *)
Definition Qlt_bool (x y : Q) : bool := negb (Qle_bool y x).

(** [x.toFixed(1)] for [x >= 0]: the nearest tenth, halves upwards, with
    one digit after the point. [distanceText] applies it from 1 on. *)
Definition toFixed1 (x : Q) : string :=
  let n := Qfloor (x * 10 + (1 # 2)) in
  (toText (n / 10) ++ "." ++ toText (n mod 10))%string.

(** [distance < 1 ? `${Math.round(distance * 1000)} m`
                  : `${distance.toFixed(1)} km`] *)
Definition distanceText (distance : Q) : string :=
  if Qlt_bool distance 1
  then (toText (Math_round (distance * 1000)) ++ " m")%string
  else (toFixed1 distance ++ " km")%string.

End Display.
Export Display.

(** ** Notions used by the further statements *)
Module MoreNotions.


(** Every document outside the default shop holds a ticket number. *)
Definition ticketedOutsideDefault (st : Store) : Prop :=
  forall d, d ∈ st -> shopId d <> "main-shop" ->
            exists n, tokenNumber d = tokNum n.

(** The number of waiting entries of the shop stored at position [p]. *)
Definition countWaitingAt (st : Store) (shop : string) (p : Z) : Z :=
  Z.of_nat (length (filter (fun d => isWaitingIn shop d /\ queuePosition d = p) st)).

(** The radius is a number. *)
Definition isNumber (maxDistance : JsNumber) : Prop :=
  match maxDistance with
  | jsNum _ => True
  | jsNaN => False
  end.

(** The radius is a number in [0, 50000]. *)
Definition radiusPasses (maxDistance : JsNumber) : Prop :=
  match maxDistance with
  | jsNum r => 0 <= r <= 50000
  | jsNaN => False
  end.

(** The coordinates are numbers other than 0, in range. *)
Definition originPasses (q : Query) : Prop :=
  exists lat lon,
    userLat q = floatNum lat /\ userLon q = floatNum lon
    /\ ~ (lat == 0)%Q /\ ~ (lon == 0)%Q /\ inRange lat lon.

End MoreNotions.
Export MoreNotions.

(** ** Facts about the insertion sort *)
Section SortFacts.
Context {A : Type} (leb : A -> A -> bool).
Let le (a b : A) : Prop := leb a b = true.

Lemma insert_Permutation x l : StableSort.insert leb x l ≡ₚ x :: l.
Proof.
  induction l as [|y l IH]; simpl; [done|].
  destruct (leb x y); [done|]. by rewrite IH, Permutation_swap.
Qed.

Lemma sort_Permutation l : StableSort.sort leb l ≡ₚ l.
Proof.
  induction l as [|x l IH]; simpl; [done|].
  by rewrite insert_Permutation, IH.
Qed.


Context (leb_total : forall x y, leb x y = true \/ leb y x = true).
Context (leb_trans : forall x y z, leb x y = true -> leb y z = true -> leb x z = true).

Lemma insert_sorted x l :
  StronglySorted le l -> StronglySorted le (StableSort.insert leb x l).
Proof.
  induction 1 as [|y l Hl IH Hy]; simpl.
  - repeat constructor.
  - destruct (leb x y) eqn:Hxy.
    + constructor; [by constructor|].
      constructor; [done|].
      eapply Forall_impl; [exact Hy|]. intros z Hz. by eapply leb_trans.
    + constructor; [done|].
      rewrite insert_Permutation. constructor; [|done].
      destruct (leb_total x y) as [H|H]; [congruence|done].
Qed.

Lemma sort_sorted l : StronglySorted le (StableSort.sort leb l).
Proof.
  induction l as [|x l IH]; simpl; [constructor|]. by apply insert_sorted.
Qed.
End SortFacts.

(** ** The position recompute *)
Section Recompute.
Implicit Types (st : Store) (ws : list Customer) (d w : Customer) (i : Z).

Lemma position_leb_total (a b : Customer) :
  position_leb a b = true \/ position_leb b a = true.
Proof. unfold position_leb. lia. Qed.

Lemma position_leb_trans (a b c : Customer) :
  position_leb a b = true -> position_leb b c = true -> position_leb a c = true.
Proof. unfold position_leb. lia. Qed.

Lemma assignPositions_fmap i ws st :
  assignPositions i ws st = assign i ws <$> st.
Proof.
  revert i st. induction ws as [|w ws IH]; intros i st; simpl.
  - by rewrite list_fmap_id.
  - rewrite IH. unfold save. rewrite <- list_fmap_compose.
    apply list_fmap_ext. intros _ d _. done.
Qed.

Lemma assign_id i ws d : _id (assign i ws d) = _id d.
Proof.
  revert i d. induction ws as [|w ws IH]; intros i d; simpl; [done|].
  rewrite IH. by destruct (decide _).
Qed.

Lemma assign_waiting shop i ws d :
  isWaitingIn shop (assign i ws d) <-> isWaitingIn shop d.
Proof.
  revert i d. induction ws as [|w ws IH]; intros i d; simpl; [done|].
  rewrite IH. by destruct (decide _).
Qed.

Lemma assign_notin i ws d : _id d ∉ (_id <$> ws) -> assign i ws d = d.
Proof.
  revert i. induction ws as [|w ws IH]; intros i Hd; simpl; [done|].
  rewrite fmap_cons, not_elem_of_cons in Hd. destruct Hd as [Hw Hd].
  rewrite decide_False by done. by apply IH.
Qed.

Lemma assign_notin_position i ws d p e :
  _id d ∉ (_id <$> ws) ->
  assign i ws (set_position p e d) = set_position p e d.
Proof. intros Hd. by apply assign_notin. Qed.

(** Along the list it processes, the loop hands out [i+1, i+2, ...]. *)
Lemma assign_positions i ws :
  NoDup (_id <$> ws) ->
  (fun d => queuePosition (assign i ws d)) <$> ws = positionsFrom i (length ws).
Proof.
  revert i. induction ws as [|w ws IH]; intros i Hnd; [done|].
  rewrite fmap_cons in Hnd. apply NoDup_cons in Hnd as [Hw Hnd].
  unfold positionsFrom. simpl. rewrite decide_True by done.
  rewrite assign_notin_position by done. simpl. f_equal; try lia.
  rewrite <- (fmap_S_seq 1), <- list_fmap_compose.
  specialize (IH (i + 1) Hnd). unfold positionsFrom in IH.
  etrans; [|etrans; [exact IH|]].
  - apply list_fmap_ext. intros k d Hk. simpl.
    rewrite decide_False; [done|].
    intros Heq. apply Hw. rewrite <- Heq.
    apply list_elem_of_fmap. exists d. split; [done|].
    by eapply list_elem_of_lookup_2.
  - apply list_fmap_ext. intros k n _. simpl. lia.
Qed.

(** Every document the loop touches gets 20 minutes per position. *)
Lemma assign_wait i ws d :
  _id d ∈ (_id <$> ws) ->
  estimatedWaitTime (assign i ws d) = queuePosition (assign i ws d) * 20.
Proof.
  revert i d. induction ws as [|w ws IH]; intros i d Hd; simpl.
  - by apply elem_of_nil in Hd.
  - destruct (decide (_id d ∈ (_id <$> ws))) as [Hin|Hnin].
    + apply IH. by destruct (decide _).
    + rewrite fmap_cons in Hd. apply elem_of_cons in Hd as [Hd|Hd]; [|done].
      rewrite decide_True by done.
      by rewrite assign_notin_position.
Qed.

Lemma NoDup_ids_filter (P : Customer -> Prop) `{!forall c, Decision (P c)} st :
  NoDup (_id <$> st) -> NoDup (_id <$> filter P st).
Proof.
  intros Hnd. eapply sublist_NoDup; [exact Hnd|].
  apply fmap_sublist, sublist_filter.
Qed.

Lemma NoDup_ids_inj st a b :
  NoDup (_id <$> st) -> a ∈ st -> b ∈ st -> _id a = _id b -> a = b.
Proof.
  intros Hnd Ha Hb Heq.
  apply list_elem_of_lookup_1 in Ha as [i Hi].
  apply list_elem_of_lookup_1 in Hb as [j Hj].
  assert (i = j) as ->.
  { eapply NoDup_lookup; [exact Hnd| |].
    - by rewrite list_lookup_fmap, Hi.
    - by rewrite list_lookup_fmap, Hj, Heq. }
  congruence.
Qed.

Lemma updateQueuePositions_fmap shop st :
  updateQueuePositions shop st = assign 0 (sortedWaiting shop st) <$> st.
Proof. unfold updateQueuePositions. by rewrite assignPositions_fmap. Qed.

Lemma waitingOf_update shop st :
  waitingOf shop (updateQueuePositions shop st)
  = assign 0 (sortedWaiting shop st) <$> waitingOf shop st.
Proof.
  rewrite updateQueuePositions_fmap. unfold waitingOf.
  generalize (sortedWaiting shop st) as ws. intros ws.
  induction st as [|d st IH]; [done|].
  rewrite fmap_cons, !filter_cons, IH.
  destruct (decide (isWaitingIn shop d)) as [Hd|Hd].
  - rewrite decide_True by (by apply assign_waiting). done.
  - rewrite decide_False by (by rewrite assign_waiting). done.
Qed.

Lemma sortedWaiting_NoDup shop st :
  NoDup (_id <$> st) -> NoDup (_id <$> sortedWaiting shop st).
Proof.
  intros Hnd. unfold sortedWaiting. rewrite sort_Permutation.
  by apply NoDup_ids_filter.
Qed.

(** After the recompute the waiting entries of the shop hold exactly the
    positions 1..M. *)
Lemma update_positions_contiguous shop st :
  NoDup (_id <$> st) ->
  queuePosition <$> waitingOf shop (updateQueuePositions shop st)
  ≡ₚ positionsFrom 0 (length (waitingOf shop (updateQueuePositions shop st))).
Proof.
  intros Hnd. rewrite waitingOf_update, length_fmap, <- list_fmap_compose.
  assert (Hp : sortedWaiting shop st ≡ₚ waitingOf shop st)
    by apply sort_Permutation.
  rewrite <- Hp at 1. rewrite <- (Permutation_length Hp).
  rewrite <- assign_positions by (by apply sortedWaiting_NoDup). done.
Qed.
End Recompute.

Section RecomputeOrder.
Implicit Types (st : Store) (ws : list Customer) (d w : Customer) (i : Z).

Lemma positionsFrom_sorted i n : StronglySorted Z.lt (positionsFrom i n).
Proof.
  unfold positionsFrom. generalize 1%nat as s.
  induction n as [|n IH]; intros s; csimpl; constructor; [apply IH|].
  apply Forall_fmap, Forall_forall. intros k Hk.
  apply elem_of_seq in Hk. simpl. lia.
Qed.


Lemma sortedWaiting_sorted shop st :
  StronglySorted (fun x y => queuePosition x <= queuePosition y)
                 (sortedWaiting shop st).
Proof.
  rewrite <- (list_fmap_id (sortedWaiting shop st)).
  eapply (StronglySorted_fmap id);
    [|apply (sort_sorted position_leb position_leb_total position_leb_trans)].
  intros x y. unfold position_leb. simpl. lia.
Qed.


Lemma save_ids id m st :
  (forall d, _id (m d) = _id d) -> _id <$> save id m st = _id <$> st.
Proof.
  intros Hm. unfold save. rewrite <- list_fmap_compose.
  apply list_fmap_ext. intros _ d _. simpl. by destruct (decide _).
Qed.

Lemma elem_of_save id m st d' :
  d' ∈ save id m st ->
  exists d, d ∈ st /\ (d' = d \/ (_id d = id /\ d' = m d)).
Proof.
  unfold save. intros Hd. apply list_elem_of_fmap in Hd as (d & -> & Hd).
  exists d. split; [done|]. destruct (decide _); auto.
Qed.
End RecomputeOrder.

Section RecomputeAfterRemoval.
Implicit Types (st : Store) (d : Customer).

End RecomputeAfterRemoval.


Section RecomputeTwice.
Implicit Types (st : Store) (ws : list Customer) (d w : Customer) (i : Z).

Lemma positionsFrom_S i n :
  positionsFrom i (S n) = (i + 1) :: positionsFrom (i + 1) n.
Proof.
  unfold positionsFrom. csimpl. f_equal.
  rewrite <- (fmap_S_seq 1), <- list_fmap_compose.
  apply list_fmap_ext. intros _ k _. simpl. lia.
Qed.

Lemma set_position_same d :
  set_position (queuePosition d) (estimatedWaitTime d) d = d.
Proof. by destruct d. Qed.

(** A list that already holds [i+1, i+2, ...] with 20 minutes per position
    is left as it is by the loop. *)
Lemma assign_fixed i ws w :
  NoDup (_id <$> ws) ->
  queuePosition <$> ws = positionsFrom i (length ws) ->
  (forall x, x ∈ ws -> estimatedWaitTime x = queuePosition x * 20) ->
  w ∈ ws -> assign i ws w = w.
Proof.
  revert i. induction ws as [|w0 ws IH]; intros i Hnd Hpos Hwait Hw.
  - by apply elem_of_nil in Hw.
  - rewrite fmap_cons in Hnd. apply NoDup_cons in Hnd as [Hw0 Hnd].
    simpl length in Hpos. rewrite positionsFrom_S, fmap_cons in Hpos.
    injection Hpos as Hp0 Hpos.
    assert (Hfix : set_position (i + 1) ((i + 1) * 20) w0 = w0).
    { rewrite <- Hp0, <- (Hwait w0) by left. apply set_position_same. }
    simpl. apply elem_of_cons in Hw as [->|Hw].
    + rewrite decide_True by done. rewrite Hfix. by apply assign_notin.
    + rewrite decide_False.
      * apply IH; [done|done| |done]. intros x Hx. apply Hwait. by right.
      * intros Heq. apply Hw0. rewrite <- Heq.
        apply list_elem_of_fmap. by exists w.
  Qed.

Lemma updateQueuePositions_ids shop st :
  _id <$> updateQueuePositions shop st = _id <$> st.
Proof.
  rewrite updateQueuePositions_fmap, <- list_fmap_compose.
  apply list_fmap_ext. intros _ d _. simpl. apply assign_id.
Qed.

Lemma sortedWaiting_positions shop st :
  NoDup (_id <$> st) ->
  let st1 := updateQueuePositions shop st in
  queuePosition <$> sortedWaiting shop st1
  = positionsFrom 0 (length (sortedWaiting shop st1)).
Proof.
  intros Hnd st1.
  assert (Hp : sortedWaiting shop st1 ≡ₚ waitingOf shop st1)
    by apply sort_Permutation.
  apply (StronglySorted_unique Z.le).
  - eapply StronglySorted_fmap; [|apply sortedWaiting_sorted]. done.
  - rewrite <- (list_fmap_id (positionsFrom _ _)).
    eapply (StronglySorted_fmap id); [|apply positionsFrom_sorted].
    simpl. lia.
  - rewrite Hp. by apply update_positions_contiguous.
Qed.

Lemma updated_wait shop st w :
  w ∈ waitingOf shop (updateQueuePositions shop st) ->
  estimatedWaitTime w = queuePosition w * 20.
Proof.
  rewrite waitingOf_update. intros Hw.
  apply list_elem_of_fmap in Hw as (w0 & -> & Hw0).
  apply assign_wait. apply list_elem_of_fmap. exists w0. split; [done|].
  unfold sortedWaiting. by rewrite sort_Permutation.
Qed.
End RecomputeTwice.

(** C8. Running the position recompute of a shop a second time, with no
    queue mutation in between, changes nothing: every document keeps the
    position and the estimated wait that the first run gave it. *)
Theorem recompute_idempotent (shop : string) (st : list Customer) :
  NoDup (_id <$> st) ->
  updateQueuePositions shop (updateQueuePositions shop st)
  = updateQueuePositions shop st.
Proof.
  intros Hnd. set (st1 := updateQueuePositions shop st).
  assert (Hnd1 : NoDup (_id <$> st1))
    by (subst st1; by rewrite updateQueuePositions_ids).
  rewrite updateQueuePositions_fmap.
  etrans; [|apply (list_fmap_id st1)].
  apply list_fmap_ext. intros k d Hd. simpl.
  apply list_elem_of_lookup_2 in Hd. clear k.
  assert (Hp : sortedWaiting shop st1 ≡ₚ waitingOf shop st1)
    by apply sort_Permutation.
  destruct (decide (isWaitingIn shop d)) as [Hw|Hw].
  - apply assign_fixed.
    + by apply sortedWaiting_NoDup.
    + by apply sortedWaiting_positions.
    + intros x Hx. rewrite Hp in Hx. by eapply updated_wait.
    + rewrite Hp. by apply list_elem_of_filter.
  - apply assign_notin. rewrite Hp. intros Hin.
    apply list_elem_of_fmap in Hin as (d' & Hid & Hd').
    apply list_elem_of_filter in Hd' as [Hw' Hd'].
    assert (d = d') as <- by (by apply (NoDup_ids_inj st1)). done.
Qed.

(** ** Ticket numbers *)
Section Tickets.
Implicit Types (st : Store) (d : Customer) (shop : string).

Lemma token_geb_total (a b : Customer) :
  token_geb a b = true \/ token_geb b a = true.
Proof.
  unfold token_geb.
  destruct (tokenRank (tokenNumber a)), (tokenRank (tokenNumber b)); auto; lia.
Qed.

Lemma token_geb_trans (a b c : Customer) :
  token_geb a b = true -> token_geb b c = true -> token_geb a c = true.
Proof.
  unfold token_geb.
  destruct (tokenRank (tokenNumber a)), (tokenRank (tokenNumber b)),
    (tokenRank (tokenNumber c)); auto; try done; lia.
Qed.

Lemma elem_of_ticketsOf shop st x :
  x ∈ ticketsOf shop st <->
  exists d, d ∈ st /\ shopId d = shop /\ tokenNumber d = tokNum x.
Proof.
  unfold ticketsOf. rewrite list_elem_of_omap. split.
  - intros (d & Hd & Hx). apply list_elem_of_filter in Hd as [Hs Hd].
    exists d. repeat split; [done..|].
    destruct (tokenNumber d); simpl in Hx; by simplify_eq.
  - intros (d & Hd & Hs & Ht). exists d. split.
    + by apply list_elem_of_filter.
    + by rewrite Ht.
Qed.

Lemma foldr_max_spec (t : Z) (ts : list Z) :
  foldr Z.max t ts ∈ t :: ts /\ Forall (fun x => x <= foldr Z.max t ts) (t :: ts).
Proof.
  induction ts as [|x ts [IHin IHle]]; simpl.
  - split; [left|]. by repeat constructor.
  - apply Forall_cons in IHle as [Ht Hts]. split.
    + destruct (Z.max_spec x (foldr Z.max t ts)) as [[_ ->]|[_ ->]].
      * apply elem_of_cons in IHin as [->|?]; [left|right; by right].
      * right. left.
    + repeat constructor; [lia|lia|].
      eapply Forall_impl; [exact Hts|]. simpl. lia.
Qed.

(** [nextTicket] is one more than the greatest ticket of the shop. *)
Lemma nextTicket_max shop st n :
  n ∈ ticketsOf shop st ->
  (forall x, x ∈ ticketsOf shop st -> x <= n) ->
  nextTicket shop st = n + 1.
Proof.
  unfold nextTicket. destruct (ticketsOf shop st) as [|t ts].
  - intros Hn. by apply elem_of_nil in Hn.
  - intros Hn Hle. destruct (foldr_max_spec t ts) as [Hin Hall].
    rewrite Forall_forall in Hall.
    specialize (Hle _ Hin). specialize (Hall _ Hn). simpl in Hall. lia.
Qed.

Lemma nextTicket_bound shop st x :
  x ∈ ticketsOf shop st -> x < nextTicket shop st.
Proof.
  unfold nextTicket. destruct (ticketsOf shop st) as [|t ts].
  - intros Hn. by apply elem_of_nil in Hn.
  - intros Hx. destruct (foldr_max_spec t ts) as [_ Hall].
    rewrite Forall_forall in Hall. specialize (Hall _ Hx). simpl in Hall. lia.
Qed.

(** The token number [getNextTokenNumber] returns, when it is a number, is
    [max + 1] over the shop, and 1 without a ticket in the shop. *)
Lemma getNextTokenNumber_spec st shop t :
  getNextTokenNumber st shop = jsNum t -> t = nextTicket shop st.
Proof.
  unfold getNextTokenNumber.
  pose proof (sort_Permutation token_geb (filter (fun d => shopId d = shop) st)) as Hp.
  pose proof (sort_sorted token_geb token_geb_total token_geb_trans
                (filter (fun d => shopId d = shop) st)) as Hs.
  destruct (StableSort.sort token_geb _) as [|h tl] eqn:Hsort.
  - intros [= <-]. apply Permutation_nil_l in Hp.
    unfold nextTicket, ticketsOf. by rewrite <- Hp.
  - apply StronglySorted_inv in Hs as [_ Hh]. rewrite Forall_forall in Hh.
    assert (Hall : forall d, d ∈ st -> shopId d = shop -> token_geb h d = true).
    { intros d Hd Hshop.
      assert (d ∈ h :: tl) as Hin
        by (rewrite Hp; by apply list_elem_of_filter).
      apply elem_of_cons in Hin as [->|Hin]; [|by apply Hh].
      destruct (token_geb_total h h); done. }
    assert (Hhin : h ∈ st /\ shopId h = shop).
    { assert (h ∈ filter (fun d => shopId d = shop) st) as Hin
        by (rewrite <- Hp; left).
      apply list_elem_of_filter in Hin. tauto. }
    destruct Hhin as [Hhst Hhshop].
    destruct (tokenNumber h) as [n| |] eqn:Htok; simpl; intros [= <-].
    + symmetry. apply nextTicket_max.
      * apply elem_of_ticketsOf. by exists h.
      * intros x Hx. apply elem_of_ticketsOf in Hx as (d & Hd & Hshop & Hx).
        specialize (Hall d Hd Hshop). unfold token_geb in Hall.
        rewrite Htok, Hx in Hall. simpl in Hall. lia.
    + unfold nextTicket. destruct (ticketsOf shop st) as [|x xs] eqn:HT; [done|].
      assert (x ∈ ticketsOf shop st) as Hx by (rewrite HT; left).
      apply elem_of_ticketsOf in Hx as (d & Hd & Hshop & Hx).
      specialize (Hall d Hd Hshop). unfold token_geb in Hall.
      rewrite Htok, Hx in Hall. done.
Qed.
End Tickets.

Section TicketSteps.
Implicit Types (st : Store) (d : Customer) (shop : string).

Lemma ticketsOf_fmap shop (f : Customer -> Customer) st :
  (forall d, shopId (f d) = shopId d) ->
  (forall d, tokenNumber (f d) = tokenNumber d) ->
  ticketsOf shop (f <$> st) = ticketsOf shop st.
Proof.
  intros Hs Ht. unfold ticketsOf. induction st as [|d st IH]; [done|].
  rewrite fmap_cons, !filter_cons, Hs.
  destruct (decide (shopId d = shop)); [|done].
  csimpl. rewrite Ht, IH. done.
Qed.

Lemma ticketsOf_save shop id (m : Customer -> Customer) st :
  (forall d, shopId (m d) = shopId d) ->
  (forall d, tokenNumber (m d) = tokenNumber d) ->
  ticketsOf shop (save id m st) = ticketsOf shop st.
Proof.
  intros Hs Ht. apply ticketsOf_fmap; intros d; by destruct (decide _).
Qed.

Lemma assign_shopId i ws d : shopId (assign i ws d) = shopId d.
Proof.
  revert i d. induction ws as [|w ws IH]; intros i d; simpl; [done|].
  rewrite IH. by destruct (decide _).
Qed.

Lemma assign_tokenNumber i ws d : tokenNumber (assign i ws d) = tokenNumber d.
Proof.
  revert i d. induction ws as [|w ws IH]; intros i d; simpl; [done|].
  rewrite IH. by destruct (decide _).
Qed.

Lemma ticketsOf_update shop shop' st :
  ticketsOf shop (updateQueuePositions shop' st) = ticketsOf shop st.
Proof.
  rewrite updateQueuePositions_fmap.
  apply ticketsOf_fmap; intros d; [apply assign_shopId|apply assign_tokenNumber].
Qed.

Lemma ticketsOf_serve shop id st :
  ticketsOf shop (snd (serveCustomer id st)) = ticketsOf shop st.
Proof.
  unfold serveCustomer. destruct id as [i|]; [|done].
  destruct (findById st i) as [c|]; [|done].
  destruct (decide _); [done|]. simpl. by apply ticketsOf_save.
Qed.

Lemma ticketsOf_complete shop id st :
  ticketsOf shop (snd (completeService id st)) = ticketsOf shop st.
Proof.
  unfold completeService. destruct id as [i|]; [|done].
  destruct (findById st i) as [c|]; [|done]. simpl.
  rewrite ticketsOf_update. by apply ticketsOf_save.
Qed.

Lemma ticketsOf_register shop u pw st :
  ticketsOf shop (snd (registerCustomer u pw st)) = ticketsOf shop st.
Proof.
  unfold registerCustomer. destruct (decide _); [done|].
  destruct (findOneByEmail st _); [done|].
  destruct (validate _ _ _ _); [|done]. simpl.
  unfold ticketsOf. rewrite filter_app, omap_app, filter_cons.
  destruct (decide _); simpl; by rewrite app_nil_r.
Qed.

Lemma findOneByEmail_Some st e c :
  findOneByEmail st e = Some c -> c ∈ st /\ email c = e.
Proof.
  unfold findOneByEmail. intros H.
  apply fmap_Some in H as ([i x] & Hfind & ->).
  apply list_find_Some in Hfind as (Hi & He & _).
  split; [by eapply list_elem_of_lookup_2|done].
Qed.

Lemma findById_Some st i c :
  findById st i = Some c -> c ∈ st /\ _id c = i.
Proof.
  unfold findById. intros H.
  apply fmap_Some in H as ([k x] & Hfind & ->).
  apply list_find_Some in Hfind as (Hi & He & _).
  split; [by eapply list_elem_of_lookup_2|done].
Qed.

(** The documents after [findOneAndUpdate]: the written one is stored, and
    every other document was stored before. *)
Lemma findOneAndUpdate_docs u service shop t p st c' st' :
  findOneAndUpdate u service shop t p st = (c', st') ->
  c' ∈ st' /\ shopId c' = shop /\ tokenNumber c' = tokNum t
  /\ forall d, d ∈ st' -> d = c' \/ d ∈ st.
Proof.
  unfold findOneAndUpdate.
  destruct (findOneByEmail st (user_email u)) as [c|] eqn:Hc; intros [= <- <-].
  - apply findOneByEmail_Some in Hc as [Hc _].
    repeat split.
    + unfold save. apply list_elem_of_fmap. exists c. split; [|done].
      by rewrite decide_True.
    + intros d Hd. apply elem_of_save in Hd as (d0 & Hd0 & [->|[_ ->]]); auto.
  - repeat split.
    + apply elem_of_app. right. left.
    + intros d Hd. apply elem_of_app in Hd as [Hd|Hd]; [by right|].
      apply list_elem_of_singleton in Hd. by left.
Qed.

(** A join either fails and leaves the store as it is, or hands out
    [nextTicket] and raises it by one. *)
Lemma joinQueue_ticket u body st :
  let shop := default "main-shop" (body_shopId body) in
  (exists code, joinQueue u body st = (Failed code, st))
  \/ (exists jd st', joinQueue u body st = (Joined jd, st')
       /\ data_tokenNumber jd = nextTicket shop st
       /\ nextTicket shop st' = nextTicket shop st + 1).
Proof.
  intros shop. unfold joinQueue. fold shop.
  destruct (body_serviceType body) as [service|]; [|left; by eexists].
  destruct service as [|ch service']; [left; by eexists|].
  set (service := String ch service').
  destruct (getNextTokenNumber st shop) as [t|] eqn:Ht; [|left; by eexists].
  apply getNextTokenNumber_spec in Ht.
  destruct (decide _) as [_|_]; [|left; by eexists].
  destruct (findOneAndUpdate u service shop t (countActive st shop + 1) st)
    as [c' st'] eqn:Hupd.
  right. eexists _, st'. split; [done|]. split; [done|].
  apply findOneAndUpdate_docs in Hupd as (Hin & Hshop & Htok & Hdocs).
  rewrite <- Ht. apply nextTicket_max.
  - apply elem_of_ticketsOf. by exists c'.
  - intros x Hx. apply elem_of_ticketsOf in Hx as (d & Hd & Hds & Hdt).
    destruct (Hdocs d Hd) as [->|Hold].
    + rewrite Htok in Hdt. injection Hdt as ->. lia.
    + assert (x < nextTicket shop st); [|lia].
      apply nextTicket_bound, elem_of_ticketsOf. by exists d.
Qed.

(** Along Joins to the shop, Serves and Completes the tickets handed out
    grow strictly, starting at [nextTicket]. *)
Lemma run_tickets shop ops st :
  Forall (joinServeComplete shop) ops ->
  StronglySorted Z.lt (ticketsGiven shop ops (fst (run ops st)))
  /\ Forall (fun t => nextTicket shop st <= t)
            (ticketsGiven shop ops (fst (run ops st))).
Proof.
  intros Hops. revert st.
  induction Hops as [|op ops Hop Hops IH]; intros st.
  - split; constructor.
  - simpl. destruct (step op st) as [r st1] eqn:Hstep.
    specialize (IH st1). destruct (run ops st1) as [rs st2] eqn:Hrun.
    simpl in IH. destruct IH as [IHs IHb]. simpl.
    unfold ticketsGiven in *. simpl.
    destruct op as [u pw|u body|user id|id|id]; simpl in Hop; try done.
    + (* Register *)
      assert (nextTicket shop st1 = nextTicket shop st) as Heq.
      { unfold nextTicket. replace st1 with (snd (registerCustomer u pw st))
          by (simpl in Hstep; by rewrite Hstep).
        by rewrite ticketsOf_register. }
      rewrite Heq in IHb. by destruct r.
    + (* Join *)
      simpl in Hstep. destruct (joinQueue_ticket u body st)
        as [(code & Hj)|(jd & st' & Hj & Hd & Hnext)];
        rewrite Hj in Hstep; injection Hstep as <- <-.
      * done.
      * rewrite Hop in *. rewrite decide_True by done. simpl.
        split.
        -- constructor; [done|].
           eapply Forall_impl; [exact IHb|]. simpl. lia.
        -- constructor; [lia|].
           eapply Forall_impl; [exact IHb|]. simpl. lia.
    + (* Serve *)
      assert (nextTicket shop st1 = nextTicket shop st) as Heq.
      { unfold nextTicket. replace st1 with (snd (serveCustomer id st))
          by (simpl in Hstep; by rewrite Hstep).
        by rewrite ticketsOf_serve. }
      rewrite Heq in IHb. by destruct r.
    + (* Complete *)
      assert (nextTicket shop st1 = nextTicket shop st) as Heq.
      { unfold nextTicket. replace st1 with (snd (completeService id st))
          by (simpl in Hstep; by rewrite Hstep).
        by rewrite ticketsOf_complete. }
      rewrite Heq in IHb. by destruct r.
Qed.
End TicketSteps.

(** C1, amended. A successful Join to a shop is given the ticket number
    max(ticket numbers held by the documents of the shop) + 1, or 1 when the
    shop holds none, which is above every ticket number the shop holds; and
    along every sequence of registrations, Joins to the shop, Serves and
    Completes the ticket numbers given by the successive Joins are strictly
    increasing, so none repeats. (A Cancel clears the ticket number of the
    entry, and the statement does not cover sequences with one.) *)
Theorem join_ticket_numbers (shop : string) :
  (forall u body st jd st',
      default "main-shop" (body_shopId body) = shop ->
      joinQueue u body st = (Joined jd, st') ->
      data_tokenNumber jd = nextTicket shop st
      /\ forall x, x ∈ ticketsOf shop st -> x < data_tokenNumber jd)
  /\ (forall ops st,
        Forall (joinServeComplete shop) ops ->
        StronglySorted Z.lt (ticketsGiven shop ops (fst (run ops st)))).
Proof.
  split.
  - intros u body st jd st' Hshop Hjoin.
    destruct (joinQueue_ticket u body st)
      as [(code & Hj)|(jd' & st'' & Hj & Hd & _)];
      rewrite Hj in Hjoin; [done|].
    injection Hjoin as <- <-. rewrite Hshop in Hd. split; [done|].
    intros x Hx. rewrite Hd. by apply nextTicket_bound.
  - intros ops st Hops. by apply run_tickets.
Qed.

(** Witness of C1: the tickets of registrations, joins, a serve and a
    complete at shop-x. *)
Lemma join_ticket_numbers_witness :
  Forall (joinServeComplete "shop-x") Examples.joinServeCompleteRun
  /\ StronglySorted Z.lt
       (ticketsGiven "shop-x" Examples.joinServeCompleteRun
          (fst (run Examples.joinServeCompleteRun []))).
Proof.
  assert (H : Forall (joinServeComplete "shop-x") Examples.joinServeCompleteRun)
    by (repeat constructor).
  split; [exact H|].
  exact (proj2 (join_ticket_numbers "shop-x") Examples.joinServeCompleteRun [] H).
Defined.

(** Counterexample to C1 as stated: after Asha joins shop-x and cancels,
    Bina's Join is given ticket 1 again. *)
Lemma ticket_reused_after_cancel :
  ticketsGiven "shop-x" Examples.cancelThenJoin
    (fst (run Examples.cancelThenJoin [])) = [1; 1]
  /\ ~ StronglySorted Z.lt
        (ticketsGiven "shop-x" Examples.cancelThenJoin
           (fst (run Examples.cancelThenJoin []))).
Proof.
  split; [by vm_compute|].
  replace (ticketsGiven _ _ _) with [1; 1] by (by vm_compute).
  intros H. apply StronglySorted_inv in H as [_ H].
  apply Forall_cons in H as [H _]. lia.
Qed.



(** Witness of C8 on the store of [movedAway]. *)
Lemma recompute_idempotent_witness :
  let st := Examples.storeAfter Examples.movedAway in
  NoDup (_id <$> st)
  /\ updateQueuePositions "shop-x" (updateQueuePositions "shop-x" st)
     = updateQueuePositions "shop-x" st.
Proof.
  intros st.
  assert (H1 : NoDup (_id <$> st)) by compute_done.
  split; [exact H1|].
  exact (recompute_idempotent "shop-x" st H1).
Defined.

(** ** Complete, Join position and Cancel *)

(** [completeService] has no guard on the status: whatever it is, the entry
    becomes completed. *)
Lemma completeService_any_status (st : list Customer) (i : nat) (c : Customer) :
  findById st i = Some c ->
  fst (completeService (Some i) st) = Done (Some (set_status completed c)).
Proof. intros Hc. unfold completeService. by rewrite Hc. Qed.

(** C3 at its failing input. Asha waits at shop-x (never served); Complete
    on her entry answers 200 and stores the entry as completed. *)
Theorem complete_on_waiting_entry :
  let st := Examples.storeAfter
              [Examples.signup Examples.asha;
               ReqJoin Examples.asha (Examples.haircutAt "shop-x")] in
  status <$> findById st 1 = Some waiting
  /\ (exists c, fst (step (ReqComplete (Some 1%nat)) st) = Done (Some c))
  /\ status <$> findById (snd (step (ReqComplete (Some 1%nat)) st)) 1
     = Some completed.
Proof. intros st. split; [by vm_compute|]. split; [|by vm_compute]. by eexists. Qed.

Section Lookup.
Implicit Types (st : Store) (d c : Customer).

Lemma findOneByEmail_cons d st e :
  findOneByEmail (d :: st) e
  = if decide (email d = e) then Some d else findOneByEmail st e.
Proof.
  unfold findOneByEmail. csimpl.
  destruct (decide (email d = e)); [done|].
  by destruct (list_find _ st) as [[??]|].
Qed.

Lemma findOneByEmail_None st e :
  findOneByEmail st e = None <-> e ∉ (email <$> st).
Proof.
  induction st as [|d st IH].
  - split; [intros _; apply not_elem_of_nil|done].
  - rewrite findOneByEmail_cons, fmap_cons, not_elem_of_cons.
    destruct (decide (email d = e)) as [He|He].
    + split; [done|]. intros [Hne _]. by destruct Hne.
    + rewrite IH. split; [by split|by intros [_ ?]].
Qed.

Lemma findOneByEmail_app_None st e c :
  findOneByEmail st e = None -> email c = e ->
  findOneByEmail (st ++ [c]) e = Some c.
Proof.
  intros Hnone Hc. induction st as [|d st IH]; simpl.
  - by rewrite findOneByEmail_cons, decide_True.
  - rewrite findOneByEmail_cons in Hnone |- *.
    destruct (decide (email d = e)); [done|]. by apply IH.
Qed.

(** After the in-place update the customer's document is the written
    one. *)
Lemma findOneByEmail_save st e c c' :
  findOneByEmail st e = Some c -> email c' = e ->
  findOneByEmail (save (_id c) (fun _ => c') st) e = Some c'.
Proof.
  intros Hc He. induction st as [|d st IH]; [done|].
  unfold save in *. rewrite fmap_cons.
  rewrite findOneByEmail_cons in Hc.
  destruct (decide (_id d = _id c)) as [Hi|Hi].
  - by rewrite findOneByEmail_cons, decide_True.
  - rewrite findOneByEmail_cons.
    destruct (decide (email d = e)) as [Hd|Hd]; [by simplify_eq|].
    by apply IH.
Qed.
End Lookup.




(** C9. A Cancel by an authenticated customer who does not own the entry
    answers 403 and leaves the store, and so the entry's status, ticket
    number and position, unchanged. *)
Theorem cancel_forbidden (u : User) (i : nat) (c : Customer) (st : list Customer) :
  findById st i = Some c ->
  user_email u <> "" ->
  email c <> user_email u ->
  cancelQueue (Some u) (Some i) st = (Failed 403, st).
Proof.
  intros Hc Hu Hne. unfold cancelQueue.
  rewrite decide_False by done. rewrite Hc. by rewrite decide_True.
Qed.

(** Witness of C9: Bina tries to cancel Asha's entry. *)
Lemma cancel_forbidden_witness :
  let st := Examples.storeAfter Examples.servedThenJoin in
  cancelQueue (Some Examples.bina) (Some 1%nat) st = (Failed 403, st).
Proof.
  intros st.
  refine (cancel_forbidden Examples.bina 1 _ st _ _ _);
    [by vm_compute|done|done].
Defined.

(** ** One document per customer *)
Section OneDocument.
Implicit Types (st : Store) (d c : Customer).

Lemma freshId_fresh st : freshId st ∉ (_id <$> st).
Proof.
unfold freshId. intros Hin. apply max_list_elem_of_le in Hin. lia.
Qed.

Lemma save_emails id (m : Customer -> Customer) st :
  (forall d, d ∈ st -> _id d = id -> email (m d) = email d) ->
  email <$> save id m st = email <$> st.
Proof.
intros Hm. unfold save. rewrite <- list_fmap_compose.
apply list_fmap_ext. intros k d Hd. simpl.
destruct (decide _); [|done]. apply Hm; [|done].
by eapply list_elem_of_lookup_2.
Qed.

Lemma assign_email i ws d : email (assign i ws d) = email d.
Proof.
revert i d. induction ws as [|w ws IH]; intros i d; simpl; [done|].
rewrite IH. by destruct (decide _).
Qed.

Lemma updateQueuePositions_emails shop st :
  email <$> updateQueuePositions shop st = email <$> st.
Proof.
rewrite updateQueuePositions_fmap, <- list_fmap_compose.
apply list_fmap_ext. intros _ d _. simpl. apply assign_email.
Qed.

(** The in-place branch of [findOneAndUpdate] keeps ids and emails. *)
Lemma update_in_place st u c c' :
  NoDup (_id <$> st) ->
  findOneByEmail st (user_email u) = Some c ->
  _id c' = _id c -> email c' = user_email u ->
  _id <$> save (_id c) (fun _ => c') st = _id <$> st
  /\ email <$> save (_id c) (fun _ => c') st = email <$> st.
Proof.
intros Hnd Hc Hid He. apply findOneByEmail_Some in Hc as [Hc Hce].
split.
- unfold save. rewrite <- list_fmap_compose.
  apply list_fmap_ext. intros _ d _. simpl. by destruct (decide _); congruence.
- apply save_emails. intros d Hd Hdi.
  assert (d = c) as -> by (by apply (NoDup_ids_inj st)). congruence.
Qed.

Lemma step_oneDocument op st :
  oneDocument st -> oneDocument (snd (step op st)).
Proof.
intros [Hids Hemails].
destruct op as [u pw|u body|user id|id|id]; simpl.
- (* Register *)
  unfold registerCustomer. destruct (decide _); [done|].
  destruct (findOneByEmail st _) eqn:Hc; [done|].
  destruct (validate _ _ _ _); [|done]. simpl.
  apply findOneByEmail_None in Hc. split; rewrite fmap_app; simpl.
  + apply NoDup_app. split; [done|]. split; [|apply NoDup_singleton].
    intros x Hx Hx'. apply list_elem_of_singleton in Hx' as ->.
    by apply freshId_fresh in Hx.
  + apply NoDup_app. split; [done|]. split; [|apply NoDup_singleton].
    intros x Hx Hx'. by apply list_elem_of_singleton in Hx' as ->.
- (* Join *)
  unfold joinQueue.
  destruct (body_serviceType body) as [[|ch service]|]; try done.
  destruct (getNextTokenNumber _ _) as [t|]; [|done].
  destruct (decide _); [|done].
  unfold findOneAndUpdate.
  destruct (findOneByEmail st (user_email u)) as [c|] eqn:Hc; simpl.
  + unfold oneDocument. destruct (update_in_place st u c
                (joinUpdate u (String ch service)
                   (default "main-shop" (body_shopId body)) t
                   (countActive st (default "main-shop" (body_shopId body)) + 1) c))
      as [-> ->]; done.
  + apply findOneByEmail_None in Hc. split; rewrite fmap_app; simpl.
    * apply NoDup_app. split; [done|]. split; [|apply NoDup_singleton].
      intros x Hx Hx'. apply list_elem_of_singleton in Hx' as ->.
      by apply freshId_fresh in Hx.
    * apply NoDup_app. split; [done|]. split; [|apply NoDup_singleton].
      intros x Hx Hx'. by apply list_elem_of_singleton in Hx' as ->.
- (* Cancel *)
  unfold cancelQueue. destruct user as [u|]; [|done].
  destruct (decide _); [done|]. destruct id as [i|]; [|done].
  destruct (findById st i) as [c|]; [|done].
  destruct (decide _); [done|]. destruct (decide _); [done|]. simpl.
  split.
  + rewrite updateQueuePositions_ids. by rewrite save_ids.
  + rewrite updateQueuePositions_emails. by rewrite save_emails.
- (* Serve *)
  unfold serveCustomer. destruct id as [i|]; [|done].
  destruct (findById st i) as [c|]; [|done].
  destruct (decide _); [done|]. simpl. unfold startService.
  split; [by rewrite save_ids|by rewrite save_emails].
- (* Complete *)
  unfold completeService. destruct id as [i|]; [|done].
  destruct (findById st i) as [c|]; [|done]. simpl.
  unfold CustomerModel.completeService. split.
  + rewrite updateQueuePositions_ids. by rewrite save_ids.
  + rewrite updateQueuePositions_emails. by rewrite save_emails.
Qed.

Lemma reachable_oneDocument st : reachable st -> oneDocument st.
Proof.
induction 1 as [|op st _ IH]; [split; constructor|by apply step_oneDocument].
Qed.

Lemma reachable_run ops st : reachable st -> reachable (snd (run ops st)).
Proof.
revert st. induction ops as [|op ops IH]; intros st Hst; [done|].
simpl. destruct (step op st) as [r st1] eqn:Hstep.
specialize (IH st1). destruct (run ops st1) as [rs st2]. simpl in *.
apply IH. replace st1 with (snd (step op st)) by (by rewrite Hstep).
by constructor.
Qed.
End OneDocument.

(** C10. In every reachable store no two documents share an email (nor an
    [_id]). A successful Join of a customer who already has a document, of
    any status, creates none: the store keeps its length, ids and emails,
    the reply carries the id of the existing document, and that document now
    holds the new shop, ticket number and position with status waiting,
    while every other document is as before. Such a Join succeeds whenever
    the service type is one of the enum, the shop id is not empty and the
    next token number is a number: the earlier entry is never a reason to
    refuse. *)
Theorem one_document_per_customer :
  (forall st, reachable st -> NoDup (email <$> st) /\ NoDup (_id <$> st))
  /\ (forall st u body c jd st',
        reachable st ->
        findOneByEmail st (user_email u) = Some c ->
        joinQueue u body st = (Joined jd, st') ->
        length st' = length st
        /\ _id <$> st' = _id <$> st
        /\ email <$> st' = email <$> st
        /\ data_customerId jd = _id c
        /\ (exists c', findOneByEmail st' (user_email u) = Some c'
              /\ _id c' = _id c
              /\ status c' = waiting
              /\ shopId c' = default "main-shop" (body_shopId body)
              /\ tokenNumber c' = tokNum (data_tokenNumber jd)
              /\ queuePosition c' = data_queuePosition jd)
        /\ (forall d, d ∈ st -> d <> c -> d ∈ st'))
  /\ (forall st u service shop c,
        findOneByEmail st (user_email u) = Some c ->
        service ∈ serviceTypeEnum -> shop <> "" ->
        getNextTokenNumber st shop <> jsNaN ->
        exists jd st',
          joinQueue u (mkJoinBody (Some service) (Some shop)) st = (Joined jd, st')).
Proof.
  split; [|split].
  - intros st Hst. apply reachable_oneDocument in Hst as [? ?]. done.
  - intros st u body c jd st' Hst Hc. apply reachable_oneDocument in Hst as [Hids _].
    unfold joinQueue. set (shop := default "main-shop" (body_shopId body)).
    destruct (body_serviceType body) as [[|ch service]|]; try done.
    destruct (getNextTokenNumber st shop) as [t|]; [|done].
    destruct (decide _); [|done].
    unfold findOneAndUpdate. rewrite Hc. intros [= <- <-]. simpl.
    set (c' := joinUpdate u (String ch service) shop t (countActive st shop + 1) c).
    destruct (update_in_place st u c c') as [Hi He]; [done..|].
    split; [unfold save; by rewrite length_fmap|].
    split; [done|]. split; [done|]. split; [done|]. split.
    + exists c'. split; [by apply findOneByEmail_save|done].
    + intros d Hd Hne. unfold save. apply list_elem_of_fmap. exists d.
      split; [|done]. rewrite decide_False; [done|].
      intros Hid. apply Hne. apply findOneByEmail_Some in Hc as [Hc _].
      by apply (NoDup_ids_inj st).
  - intros st u service shop c Hc Hs Hshop Htok. unfold joinQueue. simpl.
    destruct service as [|ch service].
    { unfold serviceTypeEnum in Hs.
      rewrite !elem_of_cons, elem_of_nil in Hs. intuition discriminate. }
    destruct (getNextTokenNumber st shop) as [t|]; [|done].
    rewrite decide_True by done.
    destruct (findOneAndUpdate _ _ _ _ _ _) as [c' st']. by eexists _, _.
Qed.

(** Witness of C10: Asha's entry at shop-x is completed, and she joins
    again. *)
Lemma one_document_per_customer_witness :
  let st := Examples.storeAfter
              [Examples.signup Examples.asha;
               ReqJoin Examples.asha (Examples.haircutAt "shop-x");
               ReqServe (Some 1%nat); ReqComplete (Some 1%nat)] in
  status <$> findOneByEmail st (user_email Examples.asha) = Some completed
  /\ exists jd st',
       joinQueue Examples.asha (Examples.haircutAt "shop-x") st = (Joined jd, st').
Proof.
  intros st. split; [by vm_compute|].
  refine (proj2 (proj2 one_document_per_customer) st Examples.asha
            "haircut" "shop-x" _ _ _ _ _).
  - by vm_compute.
  - compute_done.
  - done.
  - by vm_compute.
Defined.

(** ** Discovery: wait-time text *)

(** C7, amended. In the enriched results of both controllers the text is
    "No wait" for an estimated wait of 0 minutes and "1 hr 15 min" for 75
    minutes. With a queue length of 3, barberController with an average
    service time of 20 minutes gives "1 hr" (60 minutes is not below 60),
    and barberShopController, which always counts 15 minutes per customer,
    gives "45 min". *)
Theorem waitTimeText_cases (customers : list Customer) (shop : Candidate) :
  let en := BarberController.enrich customers shop in
  let es := BarberShopController.enrich customers shop in
  (en_estimatedWaitTime en = 0 -> waitTimeText en = "No wait")
  /\ (queueLength en = 3 -> averageWaitTime shop = 20 -> waitTimeText en = "1 hr")
  /\ (en_estimatedWaitTime en = 75 -> waitTimeText en = "1 hr 15 min")
  /\ (en_estimatedWaitTime es = 0 -> waitTimeText es = "No wait")
  /\ (queueLength es = 3 -> waitTimeText es = "45 min")
  /\ (en_estimatedWaitTime es = 75 -> waitTimeText es = "1 hr 15 min").
Proof.
  unfold BarberController.enrich, BarberShopController.enrich. simpl.
  repeat split.
  - by intros ->.
  - by intros -> ->.
  - by intros ->.
  - by intros ->.
  - by intros ->.
  - by intros ->.
Qed.

(** Witness of C7: three customers wait at shop-x, whose barber takes 20
    minutes per customer. *)
Lemma waitTimeText_cases_witness :
  let customers := Examples.storeAfter Examples.threeWaiting in
  queueLength (BarberController.enrich customers Examples.barberX) = 3
  /\ waitTimeText (BarberController.enrich customers Examples.barberX) = "1 hr".
Proof.
  intros customers.
  assert (H : queueLength (BarberController.enrich customers Examples.barberX) = 3)
    by (by vm_compute).
  split; [exact H|].
  exact (proj1 (proj2 (waitTimeText_cases customers Examples.barberX)) H eq_refl).
Defined.

(** Counterexample to C7 as stated: with a queue of 3 and 20 minutes per
    customer the text is "1 hr", not "60 min". *)
Lemma waitTimeText_sixty_minutes :
  let en := BarberController.enrich (Examples.storeAfter Examples.threeWaiting)
              Examples.barberX in
  queueLength en = 3 /\ averageWaitTime Examples.barberX = 20
  /\ waitTimeText en = "1 hr" /\ waitTimeText en <> "60 min".
Proof. by vm_compute. Qed.

(** ** Discovery: validation *)
Section Validation.
Context (findBarbers findShops findNearby : NearQuery) (customers : list Customer).

Lemma outOfRange_spec lat lon :
  outOfRange (floatNum lat) (floatNum lon) = false <-> inRange lat lon.
Proof.
  unfold outOfRange, inRange.
  rewrite !orb_false_iff, !negb_false_iff, !Qle_bool_iff. tauto.
Qed.

(** Both controllers answer 400 to an origin out of range, whatever the
    store holds. *)
Lemma out_of_range_rejected lat lon r :
  ~ inRange lat lon ->
  (exists m, BarberController.getNearbyBarbers findNearby customers
               (mkQuery (floatNum lat) (floatNum lon) r) = Rejected 400 m)
  /\ (exists m, BarberShopController.getNearbyBarbers findBarbers findShops customers
                  (mkQuery (floatNum lat) (floatNum lon) r) = Rejected 400 m).
Proof.
  intros Hout. rewrite <- outOfRange_spec in Hout.
  apply not_false_is_true in Hout.
  unfold BarberController.getNearbyBarbers,
    BarberShopController.getNearbyBarbers.
  cbn [userLat userLon radius].
  destruct (falsy (floatNum lat) || falsy (floatNum lon)); [split; by eexists|].
  rewrite Hout. split; by eexists.
Qed.

(** An origin in range with a latitude and a longitude other than 0 passes
    the coordinate checks of both controllers. *)
Lemma in_range_nonzero_accepted lat lon :
  inRange lat lon -> ~ (lat == 0)%Q -> ~ (lon == 0)%Q ->
  (exists data, BarberController.getNearbyBarbers findNearby customers
                  (mkQuery (floatNum lat) (floatNum lon) radiusAbsent)
                = Found (jsNum 2000) data)
  /\ (exists data, BarberShopController.getNearbyBarbers findBarbers findShops
                     customers (mkQuery (floatNum lat) (floatNum lon) radiusAbsent)
                   = Found (jsNum 5000) data).
Proof.
  intros Hin Hlat Hlon. rewrite <- outOfRange_spec in Hin.
  unfold BarberController.getNearbyBarbers,
    BarberShopController.getNearbyBarbers.
  cbn [userLat userLon radius falsy].
  rewrite <- Qeq_bool_iff in Hlat, Hlon.
  apply not_true_is_false in Hlat, Hlon. rewrite Hlat, Hlon, Hin.
  cbn [orb BarberController.radiusOutOfRange Z.ltb Z.compare].
  split; by eexists.
Qed.

(** barberController answers 400 to a radius outside [0, 50000] without
    calling the store. *)
Lemma radius_out_of_range_rejected q r :
  radius q = radiusText (jsNum r) -> r < 0 \/ 50000 < r ->
  exists m, BarberController.getNearbyBarbers findNearby customers q
            = Rejected 400 m.
Proof.
  intros Hr Hout. unfold BarberController.getNearbyBarbers. rewrite Hr.
  destruct (falsy (userLat q) || falsy (userLon q)); [by eexists|].
  destruct (outOfRange _ _); [by eexists|].
  unfold BarberController.radiusOutOfRange.
  assert ((r <? 0) || (50000 <? r) = true) as -> by lia.
  by eexists.
Qed.
End Validation.

(** barberShopController has no check of the radius: 60 km goes to the
    store as it is. *)
Lemma shop_controller_radius_unchecked :
  BarberShopController.getNearbyBarbers Examples.noShops Examples.noShops []
    Examples.suratWide = Found (jsNum 60000) [].
Proof. by vm_compute. Qed.

(** C6 at its failing input. The origin (0, 72.8311) on the equator is in
    range, and both controllers answer 400 "Valid latitude and longitude are
    required". *)
Theorem zero_latitude_rejected :
  inRange 0 (728311 # 10000)
  /\ BarberController.getNearbyBarbers Examples.noShops [] Examples.equator
     = Rejected 400 "Valid latitude and longitude are required"
  /\ BarberShopController.getNearbyBarbers Examples.noShops Examples.noShops []
       Examples.equator
     = Rejected 400 "Valid latitude and longitude are required".
Proof.
  split; [|by vm_compute].
  apply outOfRange_spec. by vm_compute.
Qed.

(** ** Discovery: order of the results *)
Section NearbyOrder.
Implicit Types (a b c : Enriched) (l : list Enriched).



End NearbyOrder.




(** ** Effects of the queue requests on the line *)
Section Effects.
Implicit Types (st : Store) (d c : Customer) (shop : string).

(** With unique ids, [save] rewrites one place of the store. *)
Lemma save_split st c :
  NoDup (_id <$> st) -> c ∈ st ->
  exists l1 l2, st = l1 ++ c :: l2
    /\ forall m, save (_id c) m st = l1 ++ m c :: l2.
Proof.
  intros Hnd Hc. apply list_elem_of_split in Hc as (l1 & l2 & ->).
  exists l1, l2. split; [done|]. intros m.
  rewrite fmap_app, fmap_cons in Hnd.
  apply NoDup_app in Hnd as (_ & Hl1 & Hnd2).
  apply NoDup_cons in Hnd2 as [Hl2 _].
  unfold save. rewrite fmap_app, fmap_cons, decide_True by done.
  assert (Hkeep : forall l : list Customer, _id c ∉ (_id <$> l) ->
            (fun d => if decide (_id d = _id c) then m d else d) <$> l = l).
  { intros l Hl. etrans; [|apply list_fmap_id].
    apply list_fmap_ext. intros k d Hd. simpl.
    rewrite decide_False; [done|]. intros Heq. apply Hl. rewrite <- Heq.
    apply list_elem_of_fmap. exists d. split; [done|].
    by eapply list_elem_of_lookup_2. }
  rewrite !Hkeep; [done|done|].
  intros Hin. apply (Hl1 (_id c)); [done|left].
Qed.

Lemma countActive_app l1 l2 shop :
  countActive (l1 ++ l2) shop = countActive l1 shop + countActive l2 shop.
Proof. unfold countActive. rewrite filter_app, length_app. lia. Qed.

Lemma countActive_cons d l shop :
  countActive (d :: l) shop
  = (if decide (shopId d = shop /\ isActive d) then 1 else 0) + countActive l shop.
Proof.
  unfold countActive. rewrite filter_cons.
  destruct (decide _); simpl length; lia.
Qed.

Lemma countActive_fmap (f : Customer -> Customer) st shop :
  (forall d, shopId (f d) = shopId d) -> (forall d, status (f d) = status d) ->
  countActive (f <$> st) shop = countActive st shop.
Proof.
  intros Hs Ht. induction st as [|d st IH]; [done|].
  rewrite fmap_cons, !countActive_cons, IH. unfold isActive.
  destruct (decide _) as [H1|H1], (decide _) as [H2|H2]; try done;
    exfalso; rewrite Hs, Ht in H1; tauto.
Qed.

Lemma assign_status i ws d : status (assign i ws d) = status d.
Proof.
  revert i d. induction ws as [|w ws IH]; intros i d; simpl; [done|].
  rewrite IH. by destruct (decide _).
Qed.

Lemma countActive_update shop' st shop :
  countActive (updateQueuePositions shop' st) shop = countActive st shop.
Proof.
  rewrite updateQueuePositions_fmap.
  apply countActive_fmap; intros d; [apply assign_shopId|apply assign_status].
Qed.

Lemma findById_unique st i c :
  NoDup (_id <$> st) -> c ∈ st -> _id c = i -> findById st i = Some c.
Proof.
  intros Hnd Hc Hi. destruct (findById st i) as [c0|] eqn:Hf.
  - apply findById_Some in Hf as [Hc0 Hi0]. f_equal.
    apply (NoDup_ids_inj st); [done..|congruence].
  - unfold findById in Hf. apply fmap_None, list_find_None in Hf.
    rewrite Forall_forall in Hf. by destruct (Hf c Hc).
Qed.
End Effects.

(** X2. A successful Serve turns the waiting entry into an in-service one
    and moves nobody: every other document, every stored position, the
    tickets and the queue length of every shop are as before. *)
Theorem serve_moves_nobody (i : nat) (st st' : list Customer) (r : option Customer) :
  NoDup (_id <$> st) ->
  serveCustomer (Some i) st = (Done r, st') ->
  (exists c, findById st i = Some c /\ status c = waiting
             /\ r = Some (set_status in_service c)
             /\ findById st' i = Some (set_status in_service c))
  /\ queuePosition <$> st' = queuePosition <$> st
  /\ (forall shop, countActive st' shop = countActive st shop)
  /\ (forall shop, ticketsOf shop st' = ticketsOf shop st)
  /\ (forall d, d ∈ st -> _id d <> i -> d ∈ st').
Proof.
  intros Hnd. unfold serveCustomer.
  destruct (findById st i) as [c|] eqn:Hc; [|done].
  destruct (decide (status c <> waiting)) as [|Hw]; [done|].
  apply dec_stable in Hw. intros [= <- <-].
  apply findById_Some in Hc as [Hc Hi]. unfold startService.
  destruct (save_split st c Hnd Hc) as (l1 & l2 & Hst & Hsave).
  split; [|split; [|split; [|split]]].
  - exists c. split; [done|]. split; [done|]. split; [done|].
    apply findById_unique; [by rewrite save_ids| |by rewrite <- Hi].
    rewrite Hsave. apply elem_of_app. right. left.
  - rewrite Hsave, Hst, !fmap_app, !fmap_cons. done.
  - intros shop. rewrite Hsave, Hst, !countActive_app, !countActive_cons.
    unfold isActive. simpl.
    destruct (decide _) as [|Hn1], (decide _) as [|Hn2]; try done.
    + destruct Hn2. split; [tauto|by left].
    + destruct Hn1. split; [tauto|by right].
  - intros shop. by apply ticketsOf_save.
  - intros d Hd Hne. rewrite Hi. unfold save. apply list_elem_of_fmap.
    exists d. by rewrite decide_False.
Qed.

(** Witness of X2: Asha is served at shop-x. *)
Lemma serve_moves_nobody_witness :
  let st := Examples.storeAfter Examples.threeWaiting in
  exists r st',
    serveCustomer (Some 1%nat) st = (Done r, st')
    /\ queuePosition <$> st' = queuePosition <$> st.
Proof.
  intros st. eexists _, _. split; [by vm_compute|].
  refine (proj1 (proj2 (serve_moves_nobody 1 st _ _ _ _))).
  - compute_done.
  - by vm_compute.
Defined.

Section Removal.
Implicit Types (st : Store) (d c : Customer) (shop : string).

(** The recompute of a shop leaves a document that is not waiting there as
    it is. *)
Lemma update_fixes_others shop st d :
  NoDup (_id <$> st) -> d ∈ st -> ~ isWaitingIn shop d ->
  assign 0 (sortedWaiting shop st) d = d.
Proof.
  intros Hnd Hd Hw. apply assign_notin.
  unfold sortedWaiting. rewrite sort_Permutation. intros Hin.
  apply list_elem_of_fmap in Hin as (d' & Hid & Hd').
  apply list_elem_of_filter in Hd' as [Hw' Hd'].
  assert (d = d') as <- by (by apply (NoDup_ids_inj st)). done.
Qed.

Lemma replaced_count l1 l2 c c1 shop :
  countActive (l1 ++ c1 :: l2) shop
  = countActive (l1 ++ c :: l2) shop
    - (if decide (shopId c = shop /\ isActive c) then 1 else 0)
    + (if decide (shopId c1 = shop /\ isActive c1) then 1 else 0).
Proof. rewrite !countActive_app, !countActive_cons. lia. Qed.

(** A document rewritten to one that is not waiting, then the recompute. *)
Lemma removed_then_recomputed st c (m : Customer -> Customer) shop :
  NoDup (_id <$> st) -> c ∈ st ->
  (forall d, _id (m d) = _id d) -> status (m c) <> waiting ->
  let st' := updateQueuePositions shop (save (_id c) m st) in
  findById st' (_id c) = Some (m c)
  /\ forall s, countActive st' s
       = countActive st s
         - (if decide (shopId c = s /\ isActive c) then 1 else 0)
         + (if decide (shopId (m c) = s /\ isActive (m c)) then 1 else 0).
Proof.
  intros Hnd Hc Hid Hst st'. subst st'.
  destruct (save_split st c Hnd Hc) as (l1 & l2 & Heq & Hsave).
  assert (Hnd1 : NoDup (_id <$> save (_id c) m st)) by (by rewrite save_ids).
  assert (Hin : m c ∈ save (_id c) m st).
  { rewrite Hsave. apply elem_of_app. right. left. }
  split.
  - apply findById_unique.
    + by rewrite updateQueuePositions_ids.
    + rewrite updateQueuePositions_fmap. apply list_elem_of_fmap.
      exists (m c). split; [|done]. symmetry.
      apply update_fixes_others; [done|done|]. by intros [_ ?].
    + apply Hid.
  - intros s. rewrite countActive_update, Hsave.
    rewrite (replaced_count l1 l2 c (m c) s). by rewrite <- Heq.
Qed.
End Removal.

(** X3. A Cancel succeeds only for the owner of a waiting entry, and then
    stores the entry as cancelled, without ticket number, at position 0 and
    in the default shop; the queue length of the shop it waited at drops by
    one and that of every other shop stays. *)
Theorem cancel_shortens_the_line (user : option User) (id : option nat)
    (st st' : list Customer) (r : option Customer) :
  NoDup (_id <$> st) ->
  cancelQueue user id st = (Done r, st') ->
  exists u i c,
    user = Some u /\ id = Some i /\ findById st i = Some c
    /\ email c = user_email u /\ status c = waiting
    /\ findById st' i = Some (cancelUpdate c)
    /\ countActive st' (shopId c) = countActive st (shopId c) - 1
    /\ forall shop, shop <> shopId c -> countActive st' shop = countActive st shop.
Proof.
  intros Hnd. unfold cancelQueue. destruct user as [u|]; [|done].
  destruct (decide _); [done|]. destruct id as [i|]; [|done].
  destruct (findById st i) as [c|] eqn:Hc; [|done].
  destruct (decide (email c <> user_email u)) as [|Hown]; [done|].
  apply dec_stable in Hown.
  destruct (decide (status c <> waiting)) as [|Hw]; [done|].
  apply dec_stable in Hw. intros [= <- <-].
  apply findById_Some in Hc as [Hc Hi].
  destruct (removed_then_recomputed st c cancelUpdate (shopId c) Hnd Hc)
    as [Hfind Hcount]; [done|done|].
  subst i. exists u, (_id c), c.
  split; [done|]. split; [done|]. split; [by apply findById_unique|].
  split; [done|]. split; [done|]. split; [done|]. split.
  - rewrite Hcount. simpl.
    rewrite decide_True by (split; [done|by left]).
    rewrite decide_False; [lia|]. intros [_ [?|?]]; done.
  - intros shop Hne. rewrite Hcount. simpl.
    rewrite decide_False by (intros [? _]; done).
    rewrite decide_False; [lia|]. intros [_ [?|?]]; done.
Qed.

(** Witness of X3: Asha cancels at shop-x after [movedAway]. *)
Lemma cancel_shortens_the_line_witness :
  let st := Examples.storeAfter Examples.movedAway in
  let r := cancelQueue (Some Examples.asha) (Some 1%nat) st in
  fst r = Done None
  /\ countActive (snd r) "shop-x" = countActive st "shop-x" - 1.
Proof.
  intros st r. split; [by vm_compute|].
  destruct (cancel_shortens_the_line (Some Examples.asha) (Some 1%nat) st
              (snd r) None)
    as (u & i & c & _ & Hi & Hc & _ & _ & _ & Hcount & _);
    [compute_done|by vm_compute|].
  injection Hi as <-.
  assert (Hs : shopId c = "shop-x")
    by (vm_compute in Hc; by injection Hc as <-).
  rewrite Hs in Hcount. exact Hcount.
Defined.

(** X4. A successful Complete stores the entry as completed with its ticket
    number and shop kept; the queue length of its shop drops by one when the
    entry was waiting or in service and stays otherwise, and that of every
    other shop stays. *)
Theorem complete_shortens_the_line (i : nat) (st st' : list Customer)
    (r : option Customer) :
  NoDup (_id <$> st) ->
  completeService (Some i) st = (Done r, st') ->
  exists c,
    findById st i = Some c
    /\ findById st' i = Some (set_status completed c)
    /\ countActive st' (shopId c)
       = countActive st (shopId c) - (if decide (isActive c) then 1 else 0)
    /\ (forall shop, shop <> shopId c -> countActive st' shop = countActive st shop)
    /\ (forall shop, ticketsOf shop st' = ticketsOf shop st).
Proof.
  intros Hnd Hdone.
  assert (Ht : forall shop, ticketsOf shop st' = ticketsOf shop st).
  { intros shop. replace st' with (snd (completeService (Some i) st))
      by (by rewrite Hdone). apply ticketsOf_complete. }
  revert Hdone. unfold completeService.
  destruct (findById st i) as [c|] eqn:Hc; [|done]. intros [= <- <-].
  apply findById_Some in Hc as [Hc Hi].
  unfold CustomerModel.completeService in *.
  destruct (removed_then_recomputed st c (set_status completed) (shopId c) Hnd Hc)
    as [Hfind Hcount]; [done|done|].
  subst i. exists c.
  split; [done|]. split; [done|].
  split; [|split; [|done]].
  - rewrite Hcount. simpl.
    rewrite (decide_False (P := _ /\ isActive (set_status completed c)))
      by (intros [_ [?|?]]; done).
    destruct (decide (isActive c)).
    + rewrite decide_True by done. lia.
    + rewrite decide_False by tauto. lia.
  - intros shop Hne. rewrite Hcount. simpl.
    rewrite decide_False by (intros [? _]; done).
    rewrite decide_False; [lia|]. intros [_ [?|?]]; done.
Qed.

(** Witness of X4: Asha, in service at shop-x, is completed. *)
Lemma complete_shortens_the_line_witness :
  let st := Examples.storeAfter Examples.servedThenJoin in
  let r := completeService (Some 1%nat) st in
  (exists c, fst r = Done (Some c))
  /\ forall shop, ticketsOf shop (snd r) = ticketsOf shop st.
Proof.
  intros st r. split; [by eexists|].
  edestruct (complete_shortens_the_line 1 st (snd r))
    as (c & _ & _ & _ & _ & Ht); [compute_done|vm_compute; reflexivity|].
  exact Ht.
Defined.



(** X6. A successful Join returns the estimated wait the customer's
    document already held (0 for a document it creates) and leaves it
    stored: the wait is not recomputed from the new position. *)
Theorem join_keeps_stored_wait (u : User) (body : JoinBody)
    (st st' : list Customer) (jd : JoinData) :
  joinQueue u body st = (Joined jd, st') ->
  data_estimatedWaitTime jd
  = default 0 (estimatedWaitTime <$> findOneByEmail st (user_email u))
  /\ estimatedWaitTime <$> findOneByEmail st' (user_email u)
     = Some (data_estimatedWaitTime jd).
Proof.
  unfold joinQueue. set (shop := default "main-shop" (body_shopId body)).
  destruct (body_serviceType body) as [[|ch service]|]; try done.
  destruct (getNextTokenNumber st shop) as [t|]; [|done].
  destruct (decide _); [|done].
  unfold findOneAndUpdate.
  destruct (findOneByEmail st (user_email u)) as [c|] eqn:Hc;
    intros [= <- <-]; simpl; (split; [done|]).
  - by erewrite findOneByEmail_save.
  - by erewrite findOneByEmail_app_None.
Qed.

(** Witness of X6: Chetan, recomputed to position 2 with a wait of 40
    minutes by Asha's Cancel, joins shop-x again. *)
Lemma join_keeps_stored_wait_witness :
  let st := snd (step (ReqCancel (Some Examples.asha) (Some 1%nat))
                   (Examples.storeAfter Examples.movedAway)) in
  let r := joinQueue Examples.chetan (Examples.haircutAt "shop-x") st in
  data_queuePosition <$> (match fst r with Joined jd => Some jd | _ => None end)
    = Some 3
  /\ data_estimatedWaitTime <$> (match fst r with Joined jd => Some jd | _ => None end)
     = Some 40.
Proof.
  intros st r. split; [by vm_compute|].
  edestruct (join_keeps_stored_wait Examples.chetan (Examples.haircutAt "shop-x")
               st (snd r)) as [Hwait _]; [vm_compute; reflexivity|].
  by vm_compute.
Defined.

(** ** Invariants of the reachable stores *)
Section Invariants.
Implicit Types (st : Store) (d c : Customer) (shop : string).

Lemma ticketsOf_app shop l1 l2 :
  ticketsOf shop (l1 ++ l2) = ticketsOf shop l1 ++ ticketsOf shop l2.
Proof. unfold ticketsOf. by rewrite filter_app, omap_app. Qed.

Lemma ticketsOf_one shop d :
  ticketsOf shop [d]
  = if decide (shopId d = shop)
    then match tokenNumber d with tokNum n => [n] | _ => [] end
    else [].
Proof.
  unfold ticketsOf. rewrite filter_cons, filter_nil.
  destruct (decide (shopId d = shop)); [|done].
  csimpl. by destruct (tokenNumber d).
Qed.

Lemma ticketsOf_in_app shop l1 l2 c x :
  x ∈ ticketsOf shop l1 ++ ticketsOf shop l2 ->
  x ∈ ticketsOf shop (l1 ++ c :: l2).
Proof.
  intros Hx. change (c :: l2) with ([c] ++ l2). rewrite !ticketsOf_app.
  rewrite !elem_of_app in *. tauto.
Qed.

Lemma NoDup_tickets_drop shop l1 l2 c :
  NoDup (ticketsOf shop (l1 ++ c :: l2)) ->
  NoDup (ticketsOf shop l1 ++ ticketsOf shop l2).
Proof.
  change (c :: l2) with ([c] ++ l2). rewrite !ticketsOf_app.
  intros Hnd. eapply sublist_NoDup; [exact Hnd|].
  apply sublist_app; [done|]. apply sublist_inserts_l. done.
Qed.

(** Rewriting one document into one that holds the fresh ticket [t] of
    [target], or no ticket, keeps the tickets of every shop distinct. *)
Lemma NoDup_tickets_replace shop l1 l2 c c1 :
  NoDup (ticketsOf shop (l1 ++ c :: l2)) ->
  (forall x, x ∈ ticketsOf shop [c1] ->
             forall y, y ∈ ticketsOf shop (l1 ++ c :: l2) -> y < x) ->
  NoDup (ticketsOf shop [c1]) ->
  NoDup (ticketsOf shop (l1 ++ c1 :: l2)).
Proof.
  intros Hnd Hfresh Hone. apply NoDup_tickets_drop in Hnd as Hdrop.
  change (c1 :: l2) with ([c1] ++ l2). rewrite !ticketsOf_app.
  apply NoDup_app in Hdrop as (H1 & H12 & H2).
  apply NoDup_app. split; [done|]. split.
  - intros x Hx Hx'. apply elem_of_app in Hx' as [Hx'|Hx'].
    + assert (x < x); [|lia]. apply (Hfresh x Hx').
      apply ticketsOf_in_app, elem_of_app. by left.
    + by apply (H12 x).
  - apply NoDup_app. split; [done|]. split; [|done].
    intros x Hx Hx'. assert (x < x); [|lia]. apply (Hfresh x Hx).
    apply ticketsOf_in_app, elem_of_app. by right.
Qed.

Lemma ticketsOf_one_nodup shop d : NoDup (ticketsOf shop [d]).
Proof.
  rewrite ticketsOf_one. destruct (decide _); [|constructor].
  destruct (tokenNumber d); [apply NoDup_singleton|constructor..].
Qed.

Lemma step_tickets_unique op st :
  NoDup (_id <$> st) ->
  (forall shop, NoDup (ticketsOf shop st)) ->
  forall shop, NoDup (ticketsOf shop (snd (step op st))).
Proof.
  intros Hids Hnd shop.
  destruct op as [u pw|u body|user id|id|id]; simpl.
  - by rewrite ticketsOf_register.
  - unfold joinQueue. set (target := default "main-shop" (body_shopId body)).
    destruct (body_serviceType body) as [[|ch service]|]; try done.
    destruct (getNextTokenNumber st target) as [t|] eqn:Ht; [|done].
    apply getNextTokenNumber_spec in Ht.
    destruct (decide _); [|done].
    assert (Hfresh : forall c1, shopId c1 = target -> tokenNumber c1 = tokNum t ->
              forall x, x ∈ ticketsOf shop [c1] ->
              forall y, y ∈ ticketsOf shop st -> y < x).
    { intros c1 Hs1 Ht1 x Hx y Hy. rewrite ticketsOf_one, Ht1 in Hx.
      destruct (decide (shopId c1 = shop)) as [Heq|]; [|by apply elem_of_nil in Hx].
      apply list_elem_of_singleton in Hx as ->. rewrite Ht.
      apply nextTicket_bound. by rewrite <- Hs1, Heq. }
    unfold findOneAndUpdate.
    destruct (findOneByEmail st (user_email u)) as [c|] eqn:Hc; simpl.
    + apply findOneByEmail_Some in Hc as [Hc _].
      destruct (save_split st c Hids Hc) as (l1 & l2 & Heq & Hsave).
      rewrite Hsave. apply (NoDup_tickets_replace shop l1 l2 c).
      * rewrite <- Heq. apply Hnd.
      * rewrite <- Heq. by apply Hfresh.
      * apply ticketsOf_one_nodup.
    + rewrite ticketsOf_app. apply NoDup_app. split; [apply Hnd|].
      split; [|apply ticketsOf_one_nodup].
      intros x Hx Hx'. assert (x < x); [|lia].
      refine (Hfresh _ _ _ x Hx' x Hx); done.
  - unfold cancelQueue. destruct user as [u|]; [|done].
    destruct (decide _); [done|]. destruct id as [i|]; [|done].
    destruct (findById st i) as [c|] eqn:Hc; [|done].
    destruct (decide _); [done|]. destruct (decide _); [done|]. simpl.
    rewrite ticketsOf_update. apply findById_Some in Hc as [Hc _].
    destruct (save_split st c Hids Hc) as (l1 & l2 & Heq & Hsave).
    rewrite Hsave. apply (NoDup_tickets_replace shop l1 l2 c).
    + rewrite <- Heq. apply Hnd.
    + intros x Hx. rewrite ticketsOf_one in Hx. simpl in Hx.
      destruct (decide _); by apply elem_of_nil in Hx.
    + apply ticketsOf_one_nodup.
  - by rewrite ticketsOf_serve.
  - by rewrite ticketsOf_complete.
Qed.

Lemma reachable_tickets_unique st :
  reachable st -> forall shop, NoDup (ticketsOf shop st).
Proof.
  induction 1 as [|op st Hst IH]; [intros shop; constructor|].
  apply step_tickets_unique; [|done].
  by apply reachable_oneDocument in Hst as [? _].
Qed.

Lemma elem_of_update shop st d' :
  d' ∈ updateQueuePositions shop st ->
  exists d, d ∈ st /\ shopId d' = shopId d /\ tokenNumber d' = tokenNumber d
            /\ status d' = status d /\ _id d' = _id d.
Proof.
  rewrite updateQueuePositions_fmap. intros Hd.
  apply list_elem_of_fmap in Hd as (d & -> & Hd). exists d.
  by rewrite assign_shopId, assign_tokenNumber, assign_status, assign_id.
Qed.

Lemma step_ticketed op st :
  ticketedOutsideDefault st -> ticketedOutsideDefault (snd (step op st)).
Proof.
  intros Hinv. unfold ticketedOutsideDefault in *.
  destruct op as [u pw|u body|user id|id|id]; simpl.
  - unfold registerCustomer. destruct (decide _); [done|].
    destruct (findOneByEmail st _); [done|].
    destruct (validate _ _ _ _); [|done]. simpl.
    intros d Hd Hs. apply elem_of_app in Hd as [Hd|Hd]; [by apply Hinv|].
    apply list_elem_of_singleton in Hd as ->. done.
  - unfold joinQueue.
    destruct (body_serviceType body) as [[|ch service]|]; try done.
    destruct (getNextTokenNumber _ _) as [t|]; [|done].
    destruct (decide _); [|done].
    destruct (findOneAndUpdate _ _ _ _ _ _) as [c' st'] eqn:Hupd. simpl.
    apply findOneAndUpdate_docs in Hupd as (_ & _ & Htok & Hdocs).
    intros d Hd Hs. destruct (Hdocs d Hd) as [->|Hold]; [by eexists|by apply Hinv].
  - unfold cancelQueue. destruct user as [u|]; [|done].
    destruct (decide _); [done|]. destruct id as [i|]; [|done].
    destruct (findById st i) as [c|]; [|done].
    destruct (decide _); [done|]. destruct (decide _); [done|]. simpl.
    intros d' Hd' Hs. apply elem_of_update in Hd' as (d & Hd & Hs' & Ht' & _).
    rewrite Hs' in Hs. rewrite Ht'.
    apply elem_of_save in Hd as (d0 & Hd0 & [->|[_ ->]]); [by apply Hinv|done].
  - unfold serveCustomer. destruct id as [i|]; [|done].
    destruct (findById st i) as [c|]; [|done].
    destruct (decide _); [done|]. simpl.
    intros d Hd Hs.
    apply elem_of_save in Hd as (d0 & Hd0 & [->|[_ ->]]); by apply (Hinv d0).
  - unfold completeService. destruct id as [i|]; [|done].
    destruct (findById st i) as [c|]; [|done]. simpl.
    intros d' Hd' Hs. apply elem_of_update in Hd' as (d & Hd & Hs' & Ht' & _).
    rewrite Hs' in Hs. rewrite Ht'.
    apply elem_of_save in Hd as (d0 & Hd0 & [->|[_ ->]]); by apply (Hinv d0).
Qed.

Lemma reachable_ticketed st : reachable st -> ticketedOutsideDefault st.
Proof.
  induction 1 as [|op st _ IH]; [|by apply step_ticketed].
  intros d Hd. by apply elem_of_nil in Hd.
Qed.
End Invariants.

(** X7. In every reachable store the documents of one shop hold pairwise
    distinct ticket numbers: the unique index on (shopId, tokenNumber) is
    never violated. *)
Theorem tickets_unique_per_shop (st : list Customer) (shop : string) :
  reachable st -> NoDup (ticketsOf shop st).
Proof. intros Hst. by apply reachable_tickets_unique. Qed.

(** Witness of X7: the tickets of shop-x after [movedAway]. *)
Lemma tickets_unique_per_shop_witness :
  NoDup (ticketsOf "shop-x" (Examples.storeAfter Examples.movedAway)).
Proof.
  apply tickets_unique_per_shop. apply reachable_run. constructor.
Defined.

(** X8. In every reachable store a Join to a shop other than the default
    one, with a service type of the enum, succeeds: outside 'main-shop' every
    document holds a ticket number, so the next token number is a number. *)
Theorem join_succeeds_outside_default (st : list Customer) (u : User)
    (service shop : string) :
  reachable st ->
  service ∈ serviceTypeEnum -> shop <> "" -> shop <> "main-shop" ->
  exists jd st',
    joinQueue u (mkJoinBody (Some service) (Some shop)) st = (Joined jd, st').
Proof.
  intros Hst Hservice Hshop Hdefault.
  apply reachable_ticketed in Hst.
  assert (Htok : getNextTokenNumber st shop <> jsNaN).
  { unfold getNextTokenNumber.
    pose proof (sort_Permutation token_geb (filter (fun d => shopId d = shop) st)) as Hp.
    destruct (StableSort.sort token_geb _) as [|h tl]; [done|].
    assert (h ∈ filter (fun d => shopId d = shop) st) as Hin
      by (rewrite <- Hp; left).
    apply list_elem_of_filter in Hin as [Hs Hin].
    destruct (Hst h Hin) as [n Hn]; [congruence|]. by rewrite Hn. }
  unfold joinQueue. simpl.
  destruct service as [|ch service].
  { unfold serviceTypeEnum in Hservice.
    rewrite !elem_of_cons, elem_of_nil in Hservice. intuition discriminate. }
  destruct (getNextTokenNumber st shop) as [t|]; [|done].
  rewrite decide_True by done.
  destruct (findOneAndUpdate _ _ _ _ _ _) as [c' st']. by eexists _, _.
Qed.

(** Witness of X8: Dev asks for a shave at shop-y after [movedAway]. *)
Lemma join_succeeds_outside_default_witness :
  exists jd st',
    joinQueue Examples.dev (mkJoinBody (Some "shave") (Some "shop-y"))
      (Examples.storeAfter Examples.movedAway) = (Joined jd, st').
Proof.
  apply join_succeeds_outside_default; [|compute_done|done|done].
  apply reachable_run. constructor.
Defined.

(** ** The position a customer is told *)
Section ToldPosition.
Implicit Types (st : Store) (d c : Customer) (shop : string).

Lemma positionsFrom_above i n x : x ∈ positionsFrom i n -> i < x <= i + Z.of_nat n.
Proof.
  unfold positionsFrom. intros Hx.
  apply list_elem_of_fmap in Hx as (k & -> & Hk).
  apply elem_of_seq in Hk. lia.
Qed.

Lemma filter_none {A} (P : A -> Prop) `{!forall x, Decision (P x)} (l : list A) :
  Forall (fun x => ~ P x) l -> filter P l = [].
Proof.
  induction 1 as [|x l Hx _ IH]; [done|]. by rewrite filter_cons, decide_False.
Qed.

Lemma positions_below i n p :
  i < p <= i + Z.of_nat n ->
  Z.of_nat (length (filter (fun x => x < p) (positionsFrom i n))) = p - i - 1.
Proof.
  revert i. induction n as [|n IH]; intros i Hp; [lia|].
  rewrite positionsFrom_S, filter_cons.
  destruct (decide (i + 1 < p)) as [Hlt|Hge].
  - simpl length. rewrite Nat2Z.inj_succ, IH by lia. lia.
  - assert (filter (fun x => x < p) (positionsFrom (i + 1) n) = []) as ->.
    { apply filter_none, Forall_forall. intros x Hx.
      apply positionsFrom_above in Hx. lia. }
    simpl. lia.
Qed.

Lemma positions_upto i n p :
  i < p <= i + Z.of_nat n ->
  Z.of_nat (length (filter (fun x => x <= p) (positionsFrom i n))) = p - i.
Proof.
  revert i. induction n as [|n IH]; intros i Hp; [lia|].
  rewrite positionsFrom_S, filter_cons.
  rewrite decide_True by lia. simpl length. rewrite Nat2Z.inj_succ.
  destruct (decide (i + 1 < p)) as [Hlt|Hge].
  - rewrite IH by lia. lia.
  - assert (filter (fun x => x <= p) (positionsFrom (i + 1) n) = []) as ->.
    { apply filter_none, Forall_forall. intros x Hx.
      apply positionsFrom_above in Hx. lia. }
    simpl. lia.
Qed.

(** Counting the waiting entries of a shop by a property of their stored
    position is counting positions. *)
Lemma count_waiting_positions (P : Z -> Prop) `{!forall x, Decision (P x)} st shop :
  length (filter (fun d => isWaitingIn shop d /\ P (queuePosition d)) st)
  = length (filter P (queuePosition <$> waitingOf shop st)).
Proof.
  unfold waitingOf. induction st as [|d st IH]; [done|].
  rewrite !filter_cons.
  destruct (decide (isWaitingIn shop d)) as [Hw|Hw].
  - rewrite fmap_cons, filter_cons.
    destruct (decide (P (queuePosition d))) as [Hp|Hp].
    + rewrite decide_True by done. simpl. by rewrite IH.
    + rewrite decide_False by tauto. done.
  - rewrite decide_False by tauto. done.
Qed.

Lemma told_positions_contiguous st shop c :
  queuePosition <$> waitingOf shop st
    ≡ₚ positionsFrom 0 (length (waitingOf shop st)) ->
  c ∈ st -> isWaitingIn shop c ->
  countWaitingBefore st shop (queuePosition c) + 1 = queuePosition c
  /\ countWaitingUpTo st shop (queuePosition c) = queuePosition c.
Proof.
  intros Hperm Hc Hw.
  assert (Hin : queuePosition c ∈ positionsFrom 0 (length (waitingOf shop st))).
  { rewrite <- Hperm. apply list_elem_of_fmap. exists c. split; [done|].
    by apply list_elem_of_filter. }
  apply positionsFrom_above in Hin.
  unfold countWaitingBefore, countWaitingUpTo.
  pose proof (count_waiting_positions (fun x => x < queuePosition c) st shop) as H1.
  pose proof (count_waiting_positions (fun x => x <= queuePosition c) st shop) as H2.
  cbv beta in H1, H2. rewrite H1, H2, !Hperm.
  rewrite positions_below, positions_upto by lia. lia.
Qed.

Lemma findOneActiveByEmail_Some st e c :
  findOneActiveByEmail st e = Some c -> c ∈ st /\ email c = e /\ isActive c.
Proof.
  unfold findOneActiveByEmail. intros H.
  apply fmap_Some in H as ([i x] & Hfind & ->).
  apply list_find_Some in Hfind as (Hi & [He Ha] & _).
  split; [by eapply list_elem_of_lookup_2|done].
Qed.

Lemma withPosition_same c : withPosition (queuePosition c) c = c.
Proof. apply set_position_same. Qed.

(** The positions at or before [p] are those before [p] and those at
    [p]. *)
Lemma count_upto_split st shop p :
  countWaitingUpTo st shop p
  = countWaitingBefore st shop p + countWaitingAt st shop p.
Proof.
  unfold countWaitingUpTo, countWaitingBefore, countWaitingAt.
  induction st as [|d st IH]; [done|].
  rewrite !filter_cons.
  destruct (decide (isWaitingIn shop d)) as [Hw|Hw];
    destruct (Z.lt_total (queuePosition d) p) as [Hlt|[Heq|Hgt]];
    repeat match goal with
      | |- context [decide ?P] =>
          first [ rewrite (decide_True (P := P)) by (split; [done|lia])
                | rewrite (decide_False (P := P))
                    by (intros [? ?]; (done || lia)) ]
      end; simpl length; lia.
Qed.
End ToldPosition.

(** X9. Right after the recompute of a shop, both status handlers tell a
    customer waiting there the stored position: [getMyQueueStatus], and
    [getCustomerStatus] by entry id when asked with that shop. *)
Theorem told_position_after_recompute (shop : string) (st : list Customer)
    (u : User) (i : nat) (n : JsNumber) (c : Customer) :
  NoDup (_id <$> st) ->
  let st' := updateQueuePositions shop st in
  shopId c = shop ->
  (findOneActiveByEmail st' (user_email u) = Some c ->
   getMyQueueStatus u st' = Done (Some c))
  /\ (findById st' i = Some c ->
      getCustomerStatus (mkStatusParam (Some i) n) (Some shop) st'
      = Done (Some c)).
Proof.
  intros Hnd st' Hshop.
  assert (Htold : c ∈ st' -> status c = waiting ->
            countWaitingBefore st' shop (queuePosition c) + 1 = queuePosition c
            /\ countWaitingUpTo st' shop (queuePosition c) = queuePosition c).
  { intros Hc Hw. apply told_positions_contiguous; [|done|done].
    by apply update_positions_contiguous. }
  split.
  - intros Hfind. unfold getMyQueueStatus. rewrite Hfind.
    apply findOneActiveByEmail_Some in Hfind as (Hc & _ & _).
    destruct (decide (status c = waiting)) as [Hw|]; [|done].
    rewrite Hshop. destruct (Htold Hc Hw) as [-> _].
    by rewrite withPosition_same.
  - intros Hfind. unfold getCustomerStatus. simpl. rewrite Hfind.
    apply findById_Some in Hfind as [Hc _].
    destruct (decide (status c = waiting)) as [Hw|]; [|done].
    destruct (Htold Hc Hw) as [_ ->]. by rewrite withPosition_same.
Qed.

(** Witness of X9: Chetan after Asha's Cancel at shop-x. *)
Lemma told_position_after_recompute_witness :
  let st := Examples.storeAfter Examples.movedAway in
  let st' := updateQueuePositions "shop-x" st in
  exists c, findOneActiveByEmail st' (user_email Examples.chetan) = Some c
            /\ getMyQueueStatus Examples.chetan st' = Done (Some c).
Proof.
  intros st st'. eexists. split; [by vm_compute|].
  refine (proj1 (told_position_after_recompute "shop-x" st Examples.chetan
                   0 jsNaN _ _ _) _); [compute_done|done|by vm_compute].
Defined.

(** X10. For a waiting customer the position told by [getCustomerStatus]
    (asked with the customer's shop) is the one told by [getMyQueueStatus]
    plus the number of other waiting entries of the shop stored at the same
    position: the two agree exactly when no other entry shares the stored
    position, and [getMyQueueStatus] never tells the larger one. *)
Theorem told_positions_differ_by_ties (st : list Customer) (u : User) (i : nat)
    (n : JsNumber) (c : Customer) :
  findOneActiveByEmail st (user_email u) = Some c ->
  findById st i = Some c ->
  status c = waiting ->
  exists p1 p2,
    getMyQueueStatus u st = Done (Some (withPosition p1 c))
    /\ getCustomerStatus (mkStatusParam (Some i) n) (Some (shopId c)) st
       = Done (Some (withPosition p2 c))
    /\ p2 = p1 + (countWaitingAt st (shopId c) (queuePosition c) - 1)
    /\ 1 <= countWaitingAt st (shopId c) (queuePosition c).
Proof.
  intros Hmine Hid Hw.
  exists (countWaitingBefore st (shopId c) (queuePosition c) + 1),
    (countWaitingUpTo st (shopId c) (queuePosition c)).
  split; [|split; [|split]].
  - unfold getMyQueueStatus. by rewrite Hmine, decide_True.
  - unfold getCustomerStatus. simpl. by rewrite Hid, decide_True.
  - rewrite count_upto_split. lia.
  - apply findById_Some in Hid as [Hc _]. unfold countWaitingAt.
    assert (c ∈ filter (fun d => isWaitingIn (shopId c) d
                              /\ queuePosition d = queuePosition c) st) as Hin
      by (by apply list_elem_of_filter).
    destruct (filter _ st); [by apply elem_of_nil in Hin|simpl; lia].
Qed.

(** Witness of X10: Asha and Bina both stored at position 2 of shop-x;
    Bina is told position 1 by one handler and 2 by the other. *)
Lemma told_positions_differ_by_ties_witness :
  let st := Examples.storeAfter Examples.rejoinTie in
  exists c,
    getMyQueueStatus Examples.bina st = Done (Some (withPosition 1 c))
    /\ getCustomerStatus (mkStatusParam (Some 2%nat) jsNaN) (Some "shop-x") st
       = Done (Some (withPosition 2 c)).
Proof.
  intros st.
  assert (Hc : exists c, findById st 2 = Some c) by (by eexists).
  destruct Hc as [c Hc]. exists c.
  destruct (told_positions_differ_by_ties st Examples.bina 2 jsNaN c)
    as (p1 & p2 & H1 & H2 & _ & _).
  - rewrite <- Hc. by vm_compute.
  - exact Hc.
  - vm_compute in Hc. by injection Hc as <-.
  - vm_compute in Hc. injection Hc as <-. split; by vm_compute.
Defined.

(** X11. The total that [getQueueStats] reports, waiting plus in-service,
    is the [count] of [getQueue] for the same shop and the queue length
    that Join and the discovery replies use; the estimated wait reported is
    20 minutes per waiting entry. *)
Theorem stats_agree_with_queue (shopQuery : option string) (st : list Customer) :
  let stats := getQueueStats shopQuery st in
  stats_totalInQueue stats = fst (getQueue shopQuery st)
  /\ stats_totalInQueue stats = countActive st (default "main-shop" shopQuery)
  /\ stats_estimatedWaitTime stats = 20 * stats_waiting stats.
Proof.
  set (shop := default "main-shop" shopQuery).
  assert (Hsum : Z.of_nat (length (filter (fun d => shopId d = shop /\ status d = waiting) st))
                 + Z.of_nat (length (filter (fun d => shopId d = shop /\ status d = in_service) st))
                 = countActive st shop).
  { unfold countActive. induction st as [|d st IH]; [done|].
    rewrite !filter_cons.
    assert (Hcase : status d = waiting \/ status d = in_service
                    \/ (status d <> waiting /\ status d <> in_service))
      by (destruct (status d); auto).
    destruct (decide (shopId d = shop)) as [Hshop|Hshop];
      destruct Hcase as [Hs|[Hs|[Hs1 Hs2]]];
      repeat match goal with
        | |- context [decide ?P] =>
            first [ rewrite (decide_True (P := P))
                      by (split; [done|(done || (by left) || (by right))])
                | rewrite (decide_False (P := P))
                    by (unfold isActive; intros [? ?];
                        (done || congruence || tauto)) ]
        end; simpl length; lia. }
  simpl. fold shop. split; [|split; [done|lia]].
  rewrite Hsum. unfold getCurrentQueue, countActive.
  by rewrite (Permutation_length (sort_Permutation position_leb _)).
Qed.

(** X12. [getQueue] lists every waiting or in-service entry of the shop
    exactly once, and nothing else, in non-decreasing order of the stored
    position. *)
Theorem queue_lists_active_entries (shopQuery : option string) (st : list Customer) :
  let shop := default "main-shop" shopQuery in
  snd (getQueue shopQuery st)
    ≡ₚ filter (fun d => shopId d = shop /\ isActive d) st
  /\ StronglySorted (fun a b => queuePosition a <= queuePosition b)
       (snd (getQueue shopQuery st)).
Proof.
  simpl. unfold getCurrentQueue. split; [apply sort_Permutation|].
  rewrite <- (list_fmap_id (StableSort.sort _ _)).
  eapply (StronglySorted_fmap id);
    [|apply (sort_sorted position_leb position_leb_total position_leb_trans)].
  intros x y. unfold position_leb. simpl. lia.
Qed.

(** X13. The recompute of a shop changes nothing but the position and the
    estimated wait of the entries waiting at that shop: every other
    document is stored as before, and ids, emails, shops, statuses and
    ticket numbers are those of before, in the same order. *)
Theorem recompute_touches_only_the_line (shop : string) (st : list Customer) :
  NoDup (_id <$> st) ->
  let st' := updateQueuePositions shop st in
  (forall d, d ∈ st -> ~ isWaitingIn shop d -> d ∈ st')
  /\ _id <$> st' = _id <$> st
  /\ email <$> st' = email <$> st
  /\ shopId <$> st' = shopId <$> st
  /\ status <$> st' = status <$> st
  /\ tokenNumber <$> st' = tokenNumber <$> st.
Proof.
  intros Hnd st'. subst st'. split; [|split; [|split; [|split; [|split]]]].
  - intros d Hd Hw. rewrite updateQueuePositions_fmap.
    apply list_elem_of_fmap. exists d. split; [|done].
    symmetry. by apply update_fixes_others.
  - apply updateQueuePositions_ids.
  - apply updateQueuePositions_emails.
  - rewrite updateQueuePositions_fmap, <- list_fmap_compose.
    apply list_fmap_ext. intros _ d _. simpl. apply assign_shopId.
  - rewrite updateQueuePositions_fmap, <- list_fmap_compose.
    apply list_fmap_ext. intros _ d _. simpl. apply assign_status.
  - rewrite updateQueuePositions_fmap, <- list_fmap_compose.
    apply list_fmap_ext. intros _ d _. simpl. apply assign_tokenNumber.
Qed.

(** Witness of X13: the recompute of shop-x after [movedAway]. *)
Lemma recompute_touches_only_the_line_witness :
  let st := Examples.storeAfter Examples.movedAway in
  status <$> updateQueuePositions "shop-x" st = status <$> st.
Proof.
  intros st.
  refine (proj1 (proj2 (proj2 (proj2 (proj2
            (recompute_touches_only_the_line "shop-x" st _)))))).
  compute_done.
Defined.

(** ** Discovery: distance text and validation *)
Section DisplayFacts.




End DisplayFacts.

(** The product is taken in doubles: for the shop 0.15 km away it is the
    double 1.5, and the distance is 0.2. *)
Lemma getDistance_of_double_product :
  (numberOf (greatCircleKm Examples.shopAt150m) < 15 # 100)%Q
  /\ (numberOf (greatCircleKm Examples.shopAt150m * 10)%float == 15 # 10)%Q
  /\ getDistance Examples.shopAt150m = (inject_Z 2 / 10)%Q
  /\ distanceText (getDistance Examples.shopAt150m) = "200 m".
Proof. by vm_compute. Qed.


Section Acceptance.

Lemma origin_checks (q : Query) :
  falsy (userLat q) || falsy (userLon q) = false
  /\ outOfRange (userLat q) (userLon q) = false
  <-> originPasses q.
Proof.
  unfold originPasses. destruct (userLat q) as [lat|], (userLon q) as [lon|]; simpl.
  - rewrite orb_false_iff. split.
    + intros [[Hlat Hlon] Hrange]. exists lat, lon.
      split; [done|]. split; [done|].
      split; [by rewrite <- Qeq_bool_iff, Hlat|].
      split; [by rewrite <- Qeq_bool_iff, Hlon|].
      by apply outOfRange_spec.
    + intros (lat' & lon' & [= <-] & [= <-] & Hlat & Hlon & Hrange).
      rewrite <- Qeq_bool_iff in Hlat, Hlon.
      apply not_true_is_false in Hlat, Hlon.
      split; [done|]. by apply outOfRange_spec.
  - split; [intros [H _]; by rewrite orb_true_r in H|].
    by intros (? & ? & _ & ? & _).
  - split; [by intros [? _]|]. by intros (? & ? & ? & _).
  - split; [by intros [? _]|]. by intros (? & ? & ? & _).
Qed.
End Acceptance.

(** X16. [getNearbyBarbers] of barberController answers with a result
    list exactly when latitude and longitude are numbers other than 0
    within range and the radius (2000 when absent) is a number in
    [0, 50000]; the store is asked with that radius. When the coordinates
    pass and the radius is not a number (an empty or unreadable [radius]),
    the query throws and the reply is the 500 of the [catch] block.
    [getNearbyBarbers] of barberShopController answers with a result list
    only when the coordinates pass and the radius (5000 when absent or
    empty) is a number, and it does so for every number from 0 on, with no
    upper bound, asking the store with that radius (what becomes of a
    negative radius is left to the store); when the coordinates pass and
    the radius is not a number, it answers 500. *)
Theorem nearby_accepts_iff (findBarbers findShops findNearby : NearQuery)
    (customers : list Customer) (q : Query) :
  let maxDistance :=
    match radius q with
    | radiusAbsent => jsNum 2000
    | radiusEmpty => jsNaN
    | radiusText parsed => parsed
    end in
  let shopDistance :=
    match radius q with
    | radiusText parsed => parsed
    | radiusAbsent | radiusEmpty => jsNum 5000
    end in
  ((exists m data,
      BarberController.getNearbyBarbers findNearby customers q = Found m data)
   <-> originPasses q /\ radiusPasses maxDistance)
  /\ (forall m data,
        BarberController.getNearbyBarbers findNearby customers q = Found m data ->
        m = maxDistance)
  /\ (originPasses q -> maxDistance = jsNaN ->
      BarberController.getNearbyBarbers findNearby customers q = Caught 500)
  /\ (forall m data,
        BarberShopController.getNearbyBarbers findBarbers findShops customers q
        = Found m data ->
        originPasses q /\ isNumber m /\ m = shopDistance)
  /\ (forall r,
        originPasses q -> shopDistance = jsNum r -> 0 <= r ->
        exists data,
          BarberShopController.getNearbyBarbers findBarbers findShops customers q
          = Found (jsNum r) data)
  /\ (originPasses q -> shopDistance = jsNaN ->
      BarberShopController.getNearbyBarbers findBarbers findShops customers q
      = Rejected 500 "Failed to fetch nearby barber shops").
Proof.
  intros maxDistance shopDistance. pose proof (origin_checks q) as Horigin.
  unfold BarberController.getNearbyBarbers, BarberShopController.getNearbyBarbers.
  fold maxDistance. fold shopDistance.
  destruct (falsy (userLat q) || falsy (userLon q)).
  { assert (Hno : ~ originPasses q) by (intros Ho; by apply Horigin in Ho as [? _]).
    split; [|split; [|split; [|split; [|split]]]]; try done;
      try (split; [by intros (? & ? & ?)|by intros [? _]]); by intros. }
  destruct (outOfRange (userLat q) (userLon q)).
  { assert (Hno : ~ originPasses q) by (intros Ho; by apply Horigin in Ho as [_ ?]).
    split; [|split; [|split; [|split; [|split]]]]; try done;
      try (split; [by intros (? & ? & ?)|by intros [? _]]); by intros. }
  assert (Ho : originPasses q) by (by apply Horigin).
  split; [|split; [|split; [|split; [|split]]]].
  - unfold BarberController.radiusOutOfRange, radiusPasses.
    destruct maxDistance as [r|].
    + destruct (Z.ltb_spec r 0), (Z.ltb_spec 50000 r); simpl.
      * split; [by intros (? & ? & ?)|]. intros [_ ?]. lia.
      * split; [by intros (? & ? & ?)|]. intros [_ ?]. lia.
      * split; [by intros (? & ? & ?)|]. intros [_ ?]. lia.
      * split; [intros _; split; [done|lia]|]. intros _. by eexists _, _.
    + split; [by intros (? & ? & ?)|]. by intros [_ ?].
  - destruct (BarberController.radiusOutOfRange maxDistance); [done|].
    destruct maxDistance; [|done]. by intros m data [= <- _].
  - intros _ ->. done.
  - destruct shopDistance; [|done]. by intros m data [= <- _].
  - intros r _ -> _. by eexists.
  - intros _ ->. done.
Qed.

(** Witness of X16: [radius=] (empty) at barberController, [radius=near] at
    barberShopController. *)
Lemma nearby_accepts_iff_witness :
  BarberController.getNearbyBarbers Examples.barberCollection []
    Examples.suratEmptyRadius = Caught 500
  /\ BarberShopController.getNearbyBarbers Examples.barberCollection
       Examples.shopCollection [] Examples.suratTextRadius
     = Rejected 500 "Failed to fetch nearby barber shops".
Proof.
  assert (Ho : forall r, originPasses
            (mkQuery (floatNum (211702 # 10000)) (floatNum (728311 # 10000)) r)).
  { intros r. eexists _, _. split; [done|]. split; [done|].
    split; [by vm_compute|]. split; [by vm_compute|].
    apply outOfRange_spec. by vm_compute. }
  split.
  - exact (proj1 (proj2 (proj2 (nearby_accepts_iff Examples.noShops Examples.noShops
             Examples.barberCollection [] Examples.suratEmptyRadius)))
             (Ho _) eq_refl).
  - exact (proj2 (proj2 (proj2 (proj2 (proj2 (nearby_accepts_iff
             Examples.barberCollection Examples.shopCollection Examples.noShops []
             Examples.suratTextRadius)))))
             (Ho _) eq_refl).
Defined.

(** X17. Right after a successful Join, [getCustomerStatus] asked with the
    returned ticket number and the same shop finds the customer's entry:
    the reply carries the document written by the Join, with a recalculated
    position. *)
Theorem joined_entry_found_by_ticket (u : User) (body : JoinBody)
    (st st' : list Customer) (jd : JoinData) :
  joinQueue u body st = (Joined jd, st') ->
  exists c' p,
    findOneByEmail st' (user_email u) = Some c'
    /\ _id c' = data_customerId jd
    /\ getCustomerStatus (mkStatusParam None (jsNum (data_tokenNumber jd)))
         (body_shopId body) st'
       = Done (Some (withPosition p c')).
Proof.
  intros Hjoin. pose proof Hjoin as Hjoin2.
  destruct (joinQueue_ticket u body st)
    as [(code & Hj)|(jd' & st'' & Hj & Htok & _)]; rewrite Hj in Hjoin2; [done|].
  injection Hjoin2 as -> ->. clear Hj.
  set (shop := default "main-shop" (body_shopId body)) in *.
  assert (Hdoc : exists c', findOneByEmail st' (user_email u) = Some c'
            /\ _id c' = data_customerId jd /\ status c' = waiting
            /\ c' ∈ st' /\ shopId c' = shop
            /\ tokenNumber c' = tokNum (data_tokenNumber jd)
            /\ forall d, d ∈ st' -> d = c' \/ d ∈ st).
  { revert Hjoin. unfold joinQueue. fold shop.
    destruct (body_serviceType body) as [[|ch service]|]; try done.
    destruct (getNextTokenNumber st shop) as [t|]; [|done].
    destruct (decide _); [|done].
    destruct (findOneAndUpdate _ _ _ _ _ _) as [c' st1] eqn:Hupd.
    intros [= <- <-]. exists c'.
    pose proof (findOneAndUpdate_docs _ _ _ _ _ _ _ _ Hupd) as (Hin & Hs & Ht & Hdocs).
    revert Hupd. unfold findOneAndUpdate.
    destruct (findOneByEmail st (user_email u)) as [c|] eqn:Hc; intros [= <- <-].
    - split; [by apply findOneByEmail_save|done].
    - split; [by apply findOneByEmail_app_None|done]. }
  destruct Hdoc as (c' & Hmail & Hid & Hw & Hin & Hs & Ht & Hdocs).
  exists c', (countWaitingUpTo st' shop (queuePosition c')).
  split; [done|]. split; [done|].
  unfold getCustomerStatus. simpl. fold shop.
  assert (Hfind : findOneByToken st' (data_tokenNumber jd) shop = Some c').
  { unfold findOneByToken.
    destruct (list_find _ st') as [[k d]|] eqn:Hk; simpl.
    - apply list_find_Some in Hk as (Hk & [Hdt Hds] & _).
      apply list_elem_of_lookup_2 in Hk.
      destruct (Hdocs d Hk) as [->|Hold]; [done|].
      assert (data_tokenNumber jd < nextTicket shop st); [|lia].
      apply nextTicket_bound, elem_of_ticketsOf. by exists d.
    - apply list_find_None in Hk. rewrite Forall_forall in Hk.
      by destruct (Hk c' Hin). }
  rewrite Hfind. by rewrite decide_True.
Qed.

(** Witness of X17: Bina joins shop-x while Asha is in service. *)
Lemma joined_entry_found_by_ticket_witness :
  let st := Examples.storeAfter Examples.servedThenJoin in
  let r := joinQueue Examples.bina (Examples.haircutAt "shop-x") st in
  exists c' p,
    getCustomerStatus (mkStatusParam None (jsNum 2)) (Some "shop-x") (snd r)
    = Done (Some (withPosition p c')).
Proof.
  intros st r.
  edestruct (joined_entry_found_by_ticket Examples.bina
               (Examples.haircutAt "shop-x") st (snd r))
    as (c' & p & _ & _ & Hfound); [vm_compute; reflexivity|].
  by exists c', p.
Defined.

(** X18. No request removes a document: the ids stored before a request
    are still stored after it, in the same places, with at most new ones
    appended. *)
Theorem requests_never_remove (op : Op) (st : list Customer) :
  (_id <$> st) `prefix_of` (_id <$> snd (step op st)).
Proof.
  destruct op as [u pw|u body|user id|id|id]; simpl.
  - unfold registerCustomer. destruct (decide _); [done|].
    destruct (findOneByEmail st _); [done|].
    destruct (validate _ _ _ _); [|done]. simpl.
    rewrite fmap_app. by apply prefix_app_r.
  - unfold joinQueue.
    destruct (body_serviceType body) as [[|ch service]|]; try done.
    destruct (getNextTokenNumber _ _) as [t|]; [|done].
    destruct (decide _); [|done]. unfold findOneAndUpdate.
    destruct (findOneByEmail st (user_email u)) as [c|]; simpl.
    + assert (_id <$> save (_id c)
                (fun _ => joinUpdate u (String ch service)
                   (default "main-shop" (body_shopId body)) t
                   (countActive st (default "main-shop" (body_shopId body)) + 1) c)
                st = _id <$> st) as ->; [|done].
      unfold save. rewrite <- list_fmap_compose.
      apply list_fmap_ext. intros _ d _. simpl.
      by destruct (decide _).
    + rewrite fmap_app. by apply prefix_app_r.
  - unfold cancelQueue. destruct user as [u|]; [|done].
    destruct (decide _); [done|]. destruct id as [i|]; [|done].
    destruct (findById st i) as [c|]; [|done].
    destruct (decide _); [done|]. destruct (decide _); [done|]. simpl.
    by rewrite updateQueuePositions_ids, save_ids.
  - unfold serveCustomer. destruct id as [i|]; [|done].
    destruct (findById st i) as [c|]; [|done].
    destruct (decide _); [done|]. simpl. unfold startService.
    by rewrite save_ids.
  - unfold completeService. destruct id as [i|]; [|done].
    destruct (findById st i) as [c|]; [|done]. simpl.
    unfold CustomerModel.completeService.
    by rewrite updateQueuePositions_ids, save_ids.
Qed.
